(** * DataBasePeople: themes and widget styles

    A shallow embedding of [themes.py] (class [ThemeManager]) and
    [styles.py] (class [AppStyles]), and the properties of theme
    switching and style resolution proved over it.

    Python dictionaries that the program only indexes or builds
    ([colors], [fonts], [resolved_config], keyword arguments) are finite
    maps; dictionary literals that the program iterates ([themes],
    [styles] and each style's configuration) are association lists in
    source order, since the order of iteration fixes the order of the
    calls made to the toolkit. *)

From Stdlib Require Import ZArith String Ascii List.
From stdpp Require Import base option list gmap strings fin_maps.
Import ListNotations.

Local Open Scope string_scope.
Local Open Scope Z_scope.
Local Open Scope list_scope.

#[local] Set Warnings "-clear-no-such-hyp".

(** ** Python values *)

(** The values stored in the tables: strings (colours, references),
    integers (padding, sizes), tuples (font descriptors) and lists (the
    state maps passed to [style.map]). *)
#[warnings="-register-all"]
Inductive pyval : Type :=
  | PStr (s : string)
  | PInt (n : Z)
  | PTuple (items : list pyval)
  | PList (items : list pyval).

(** Exceptions raised by the operations of the two classes: those of
    the lookups they make, [TclError] from the toolkit, and [TypeError]
    from the binding of keyword arguments. *)
Inductive exn : Type :=
  | KeyError (key : string)
  | IndexError
  | TclError
  | TypeError.

Inductive result (A : Type) : Type :=
  | Ok (a : A)
  | Raise (e : exn).
Arguments Ok {A} a.
Arguments Raise {A} e.

(** Keyword arguments and resolved configurations. *)
Abbreviation kwargs := (gmap string pyval).

(** ** Strings *)

Module PyStr.

(** [value.startswith(p)] *)
Definition startswith (p s : string) : bool := String.prefix p s.

(** [s.split(sep)] for a one-character separator: the pieces between
    the occurrences of [sep], empty pieces included. *)
Fixpoint split (sep : ascii) (s : string) : list string :=
  match s with
  | EmptyString => [EmptyString]
  | String c rest =>
      if Ascii.eqb c sep then EmptyString :: split sep rest
      else match split sep rest with
           | [] => [String c EmptyString]
           | piece :: pieces => String c piece :: pieces
           end
  end.

(** [l[i]] on a list *)
Definition index {A} (l : list A) (i : nat) : result A :=
  match nth_error l i with
  | Some a => Ok a
  | None => Raise IndexError
  end.

End PyStr.

(** ** The toolkit's style engine

    [ttk.Style] belongs to the toolkit, not to this repository.  A
    [Style] object is a handle on the style database of the toolkit's
    interpreter and has no state of its own; the interpreter is modelled
    by the calls made through the handle, in order, refused ones
    included.  Which calls the toolkit refuses follows from the themes
    it has at that point. *)
Inductive style_call : Type :=
  | ThemeCreate (themename parent : string)
  | ThemeUse (themename : string)
  | Configure (style_name : string) (kw : kwargs)
  | Map (style_name : string) (kw : kwargs).

Definition Tk := list style_call.

Inductive Style : Type := ttk_Style.

(** Modelled from the toolkit: the themes Tk has on every platform
    before any is created (a platform adds its native ones). *)
Definition builtin_themes : list string := ["clam"; "alt"; "default"; "classic"].

(** The themes the toolkit has after a call, from those it had before:
    [theme_create] adds a theme when the name is new and the parent
    exists. *)
Definition register (names : list string) (call : style_call) : list string :=
  match call with
  | ThemeCreate n p =>
      if bool_decide (n ∈ names) then names
      else if bool_decide (p ∈ names) then n :: names
      else names
  | _ => names
  end.

(** [style.theme_names()] after the calls [calls]. *)
Definition theme_names (calls : Tk) : list string :=
  foldl register builtin_themes calls.

(** What a call does when the toolkit has the themes [names].
    [theme_create] raises [TclError] when the theme exists already or
    the parent does not; [theme_use] raises [TclError] when the theme
    does not exist.  [configure(self, style, query_opt=None, **kw)] and
    [map] raise [TypeError] when a keyword is named [self] or [style],
    which their own parameters already bind.  A keyword named
    [query_opt] binds that parameter, and the call then queries the
    style instead of setting it: that case is outside the model, and
    every property about the keywords of a call assumes none has that
    name. *)
Definition accepts (names : list string) (call : style_call) : result unit :=
  match call with
  | ThemeCreate n p =>
      if bool_decide (n ∈ names) then Raise TclError
      else if bool_decide (p ∈ names) then Ok tt
      else Raise TclError
  | ThemeUse n =>
      if bool_decide (n ∈ names) then Ok tt else Raise TclError
  | Configure _ kw | Map _ kw =>
      match kw !! "self", kw !! "style" with
      | None, None => Ok tt
      | _, _ => Raise TypeError
      end
  end.

(** ** Themes *)

(** The dictionary [{"name": ..., "colors": {...}, "fonts": {...}}]. *)
Record Theme : Type := mkTheme {
  name : string;
  colors : kwargs;
  fonts : kwargs
}.

(** The fields of a [ThemeManager] object. *)
Record ThemeManager : Type := mkThemeManager {
  current_theme : string;
  themes : list (string * Theme);
  style : Style
}.

(** What the methods run on: the [ThemeManager] and the interpreter
    behind its [style]. *)
Record World : Type := mkWorld {
  theme_manager : ThemeManager;
  tk : Tk
}.

(** ** Exceptions and state

    [result] carries the exceptions of code that touches no object;
    a method runs in [M], and what it has written before raising stays
    written. *)
#[export] Instance result_ret : MRet result := @Ok.

#[export] Instance result_bind : MBind result := λ A B k r,
  match r with
  | Ok a => k a
  | Raise e => Raise e
  end.

Definition M (A : Type) : Type := World → result A * World.

#[export] Instance M_ret : MRet M := λ A a w, (Ok a, w).

#[export] Instance M_bind : MBind M := λ A B k m w,
  match m w with
  | (Ok a, w') => k a w'
  | (Raise e, w') => (Raise e, w')
  end.

(** Code without effects, run inside a method. *)
Definition lift {A} (r : result A) : M A := λ w, (r, w).

(** Reading [self]. *)
Definition get_self : M ThemeManager := λ w, (Ok (theme_manager w), w).

(** [self.current_theme = n] *)
Definition set_current_theme (n : string) : M unit := λ w,
  let self := theme_manager w in
  (Ok tt, {| theme_manager := {| current_theme := n; themes := themes self;
                                 style := style self |};
             tk := tk w |}).

(** A call through [self.style]: the toolkit takes it or raises. *)
Definition call_style (c : style_call) : M unit := λ w,
  (accepts (theme_names (tk w)) c,
   {| theme_manager := theme_manager w; tk := tk w ++ [c] |}).

(** [for x in xs: body(x)] *)
Fixpoint for_each {A} (xs : list A) (body : A → M unit) : M unit :=
  match xs with
  | [] => mret tt
  | x :: xs' => body x;; for_each xs' body
  end.

(** ** Dictionaries *)

(** [d[k]] *)
Definition getitem (d : kwargs) (k : string) : result pyval :=
  match d !! k with
  | Some v => Ok v
  | None => Raise (KeyError k)
  end.

(** [d[k]] on a dictionary kept in source order *)
Fixpoint assoc {V} (d : list (string * V)) (k : string) : result V :=
  match d with
  | [] => Raise (KeyError k)
  | (k', v) :: d' => if String.eqb k' k then Ok v else assoc d' k
  end.

(** A dictionary literal whose values are constants. *)
Definition dict (items : list (string * pyval)) : kwargs := list_to_map items.

(** A dictionary display or keyword-argument list whose values are
    expressions: they are evaluated from left to right, and the first
    exception ends the evaluation. *)
Fixpoint eval_items (items : list (string * result pyval))
    : result (list (string * pyval)) :=
  match items with
  | [] => Ok []
  | (k, e) :: rest => v ← e; vs ← eval_items rest; Ok ((k, v) :: vs)
  end.

Definition eval_dict (items : list (string * result pyval)) : result kwargs :=
  vs ← eval_items items; Ok (dict vs).

(** ** [themes.py] *)

Definition font (family : string) (size : Z) : pyval :=
  PTuple [PStr family; PInt size].

Definition font_styled (family : string) (size : Z) (weight : string) : pyval :=
  PTuple [PStr family; PInt size; PStr weight].

Definition _get_light_theme : Theme :=
  {| name := "light";
     colors := dict [
       ("primary", PStr "#4a6fa5");
       ("secondary", PStr "#6c757d");
       ("success", PStr "#28a745");
       ("danger", PStr "#dc3545");
       ("warning", PStr "#ffc107");
       ("info", PStr "#17a2b8");
       ("bg", PStr "#f8f9fa");
       ("fg", PStr "#212529");
       ("entry_bg", PStr "#ffffff");
       ("select_bg", PStr "#e2e6ea");
       ("select_fg", PStr "#000000");
       ("border", PStr "#ced4da");
       ("button_bg", PStr "#e9ecef");
       ("button_active", PStr "#d3d9df");
       ("text_bg", PStr "#ffffff") ];
     fonts := dict [
       ("default", font "Segoe UI" 10);
       ("heading", font_styled "Segoe UI" 12 "bold");
       ("title", font_styled "Segoe UI" 14 "bold") ] |}.

Definition _get_dark_theme : Theme :=
  {| name := "dark";
     colors := dict [
       ("primary", PStr "#5a86c2");
       ("secondary", PStr "#5c636a");
       ("success", PStr "#2ecc71");
       ("danger", PStr "#e74c3c");
       ("warning", PStr "#f39c12");
       ("info", PStr "#3498db");
       ("bg", PStr "#2d2d2d");
       ("fg", PStr "#e0e0e0");
       ("entry_bg", PStr "#1e1e1e");
       ("select_bg", PStr "#3d3d3d");
       ("select_fg", PStr "#ffffff");
       ("border", PStr "#444444");
       ("button_bg", PStr "#3d3d3d");
       ("button_active", PStr "#4d4d4d");
       ("text_bg", PStr "#252525") ];
     fonts := dict [
       ("default", font "Segoe UI" 10);
       ("heading", font_styled "Segoe UI" 12 "bold");
       ("title", font_styled "Segoe UI" 14 "bold") ] |}.

(** [ThemeManager.__init__] *)
Definition ThemeManager_init : ThemeManager :=
  {| current_theme := "light";
     themes := [("light", _get_light_theme); ("dark", _get_dark_theme)];
     style := ttk_Style |}.

(** The world once the [ThemeManager] is built. *)
Definition World_init : World :=
  {| theme_manager := ThemeManager_init; tk := [] |}.

(** [self.style.configure(style_name, **kw)] and [self.style.map] *)
Definition configure (style_name : string) (kw : list (string * result pyval))
    : M unit :=
  kw ← lift (eval_dict kw); call_style (Configure style_name kw).

Definition map_ (style_name : string) (kw : list (string * result pyval))
    : M unit :=
  kw ← lift (eval_dict kw); call_style (Map style_name kw).

(** [[(state, value)]], one state specification of [style.map] *)
Definition statespec (state : string) (value : result pyval) : result pyval :=
  v ← value; Ok (PList [PTuple [PStr state; v]]).

(** [ThemeManager._configure_theme] *)
Definition _configure_theme (theme : Theme) : M unit :=
  let colors := getitem (colors theme) in
  let fonts := getitem (fonts theme) in
  call_style (ThemeCreate (name theme) "alt");;
  call_style (ThemeUse (name theme));;
  configure "." [
    ("background", colors "bg");
    ("foreground", colors "fg");
    ("font", fonts "default");
    ("borderwidth", Ok (PInt 1)) ];;
  configure "TFrame" [("background", colors "bg")];;
  configure "TLabel" [
    ("background", colors "bg");
    ("foreground", colors "fg") ];;
  configure "TEntry" [
    ("fieldbackground", colors "entry_bg");
    ("foreground", colors "fg");
    ("insertcolor", colors "fg");
    ("bordercolor", colors "border");
    ("lightcolor", colors "border");
    ("darkcolor", colors "border") ];;
  configure "TButton" [
    ("background", colors "button_bg");
    ("foreground", colors "fg");
    ("bordercolor", colors "border");
    ("focusthickness", Ok (PInt 3));
    ("focuscolor", colors "primary") ];;
  map_ "TButton" [
    ("background", statespec "active" (colors "button_active"));
    ("foreground", statespec "active" (colors "fg")) ];;
  configure "Treeview" [
    ("background", colors "entry_bg");
    ("foreground", colors "fg");
    ("fieldbackground", colors "entry_bg");
    ("rowheight", Ok (PInt 25)) ];;
  configure "Treeview.Heading" [
    ("background", colors "button_bg");
    ("foreground", colors "fg");
    ("font", fonts "heading") ];;
  map_ "Treeview" [
    ("background", statespec "selected" (colors "select_bg"));
    ("foreground", statespec "selected" (colors "select_fg")) ].

(** [ThemeManager.setup_themes] *)
Definition setup_themes : M unit :=
  self ← get_self;
  for_each (themes self).*2 _configure_theme.

(** [ThemeManager.get_current_theme] *)
Definition get_current_theme : M Theme :=
  self ← get_self;
  lift (assoc (themes self) (current_theme self)).

(** [ThemeManager.toggle_theme] *)
Definition toggle_theme : M Theme :=
  self ← get_self;
  set_current_theme
    (if String.eqb (current_theme self) "light" then "dark" else "light");;
  self ← get_self;
  call_style (ThemeUse (current_theme self));;
  self ← get_self;
  lift (assoc (themes self) (current_theme self)).

(** [ThemeManager.get_style] *)
Definition get_style (style_name : string) : M (option kwargs) :=
  if String.eqb style_name "Action.TButton" then
    current_theme ← get_current_theme;
    d ← lift (eval_dict [
      ("background", getitem (colors current_theme) "button_bg");
      ("foreground", getitem (colors current_theme) "fg");
      ("font", getitem (fonts current_theme) "default");
      ("padding", Ok (PInt 5)) ]);
    mret (Some d)
  else mret None.

(** ** [styles.py] *)

(** An [AppStyles] object.  Its field [theme_manager] is a reference to
    the [ThemeManager] it was built with, not a copy: [setup_styles]
    runs in [M], on that object. *)
Record AppStyles : Type := mkAppStyles {
  styles : list (string * list (string * pyval))
}.

(** [AppStyles.__init__] *)
Definition AppStyles_init : AppStyles :=
  {| styles := [
       ("Main.TFrame", [("background", PStr "colors.bg")]);
       ("Header.TLabel", [
          ("font", PStr "fonts.heading");
          ("background", PStr "colors.bg");
          ("foreground", PStr "colors.primary") ]);
       ("Action.TButton", [
          ("font", PStr "fonts.default");
          ("padding", PInt 5);
          ("background", PStr "colors.button_bg");
          ("foreground", PStr "colors.fg") ]);
       ("Login.TLabel", [("font", PStr "fonts.default")]);
       ("Login.TButton", [
          ("font", PStr "fonts.default");
          ("padding", PInt 5) ]);
       ("Login.TEntry", [
          ("font", PStr "fonts.default");
          ("padding", PInt 5) ]);
       ("Treeview.Heading", [
          ("font", PStr "fonts.heading");
          ("background", PStr "colors.button_bg");
          ("foreground", PStr "colors.fg") ]) ] |}.

(** The body of the inner loop of [setup_styles]: the value stored
    under [key] in [resolved_config]. *)
Definition resolve_value (current_theme : Theme) (value : pyval) : result pyval :=
  match value with
  | PStr s =>
      if PyStr.startswith "colors." s then
        color_key ← PyStr.index (PyStr.split "." s) 1;
        getitem (colors current_theme) color_key
      else if PyStr.startswith "fonts." s then
        font_key ← PyStr.index (PyStr.split "." s) 1;
        getitem (fonts current_theme) font_key
      else Ok value
  | _ => Ok value
  end.

(** The inner loop of [setup_styles], from the [resolved_config] built
    so far. *)
Fixpoint resolve_config (current_theme : Theme) (style_config : list (string * pyval))
    (resolved_config : kwargs) : result kwargs :=
  match style_config with
  | [] => Ok resolved_config
  | (key, value) :: rest =>
      v ← resolve_value current_theme value;
      resolve_config current_theme rest (<[key := v]> resolved_config)
  end.

(** [AppStyles.setup_styles] *)
Definition setup_styles (self : AppStyles) : M unit :=
  current_theme ← get_current_theme;
  for_each (styles self) (λ '(style_name, style_config),
    resolved_config ← lift (resolve_config current_theme style_config ∅);
    call_style (Configure style_name resolved_config)).

(** ** Reachable worlds *)

(** The calls a client can make. *)
Inductive method : Type :=
  | Setup_themes
  | Toggle_theme
  | Get_current_theme
  | Get_style (style_name : string)
  | Setup_styles.

(** The world a call leaves behind, whether it returns or raises. *)
Definition run (m : method) (w : World) : World :=
  match m with
  | Setup_themes => (setup_themes w).2
  | Toggle_theme => (toggle_theme w).2
  | Get_current_theme => (get_current_theme w).2
  | Get_style style_name => (get_style style_name w).2
  | Setup_styles => (setup_styles AppStyles_init w).2
  end.

Inductive reachable : World → Prop :=
  | reachable_init : reachable World_init
  | reachable_run m w : reachable w → reachable (run m w).

(** The name [toggle_theme] switches to. *)
Definition other_theme (n : string) : string :=
  if String.eqb n "light" then "dark" else "light".

(** A value that is still a reference. *)
Definition is_symbolic (value : pyval) : bool :=
  match value with
  | PStr s => PyStr.startswith "colors." s || PyStr.startswith "fonts." s
  | _ => false
  end.

(** ** Vocabulary of the properties *)

(** The theme record selected in a reachable world. *)
Definition theme_named (n : string) : Theme :=
  if String.eqb n "dark" then _get_dark_theme else _get_light_theme.

(** A world that takes a few calls to reach, dark theme active. *)
Definition World_dark : World :=
  run Toggle_theme (run Setup_styles (run Setup_themes World_init)).

Definition is_Ok {A} (r : result A) : Prop := ∃ a, r = Ok a.

(** [pure m]: [m] writes nothing. *)
Definition pure {A} (m : M A) : Prop := ∀ w, (m w).2 = w.

(** [only_tk m]: [m] writes no field of the [ThemeManager]; it may call
    the toolkit. *)
Definition only_tk {A} (m : M A) : Prop :=
  ∀ w, theme_manager (m w).2 = theme_manager w.

Definition two_themes (w : World) : Prop :=
  themes (theme_manager w) = themes ThemeManager_init ∧
  (current_theme (theme_manager w) = "light" ∨
   current_theme (theme_manager w) = "dark").

(** A theme whose tables hold no reference. *)
Definition literal_theme (t : Theme) : Prop :=
  ∀ k v, colors t !! k = Some v ∨ fonts t !! k = Some v → is_symbolic v = false.

(** [c in s] *)
Fixpoint has_char (c : ascii) (s : string) : bool :=
  match s with
  | EmptyString => false
  | String a rest => Ascii.eqb a c || has_char c rest
  end.

(** The references of a style name keys without a dot. *)
Definition plain_refs (style_config : list (string * pyval)) : Prop :=
  ∀ key value k,
    (key, value) ∈ style_config →
    value = PStr ("colors." +:+ k) ∨ value = PStr ("fonts." +:+ k) →
    has_char "." k = false.

(** No property of the style has the name of a parameter of
    [Style.configure]. *)
Definition plain_properties (style_config : list (string * pyval)) : Prop :=
  ("self" ∉ style_config.*1) ∧ ("style" ∉ style_config.*1) ∧
  ("query_opt" ∉ style_config.*1).

(** What resolving [style_config] against [t] must give: one entry per
    property; under a property whose value is ["colors.<k>"] the theme's
    [colors[<k>]], under one whose value is ["fonts.<k>"] the theme's
    [fonts[<k>]], under any other the value itself; and no reference
    left. *)
Definition resolves_to (t : Theme) (style_config : list (string * pyval))
    (resolved : kwargs) : Prop :=
  dom resolved = list_to_set style_config.*1 ∧
  (∀ key value, (key, value) ∈ style_config →
     (∀ k, value = PStr ("colors." +:+ k) →
           is_Some (colors t !! k) ∧ resolved !! key = colors t !! k) ∧
     (∀ k, value = PStr ("fonts." +:+ k) →
           is_Some (fonts t !! k) ∧ resolved !! key = fonts t !! k) ∧
     (is_symbolic value = false → resolved !! key = Some value)) ∧
  (∀ key v, resolved !! key = Some v → is_symbolic v = false).

(** The calls a method has added to those of [w]. *)
Definition new_calls (w w' : World) : Tk := drop (length (tk w)) (tk w').

(** The dictionaries [setup_styles] has passed for [style_name], among
    the calls [calls]. *)
Definition configured (style_name : string) (calls : Tk) : list kwargs :=
  omap (λ call,
          match call with
          | Configure n kw => if String.eqb n style_name then Some kw else None
          | _ => None
          end) calls.

(** The names passed to [theme_use], and to [theme_create] with their
    parents, among [calls], in order. *)
Definition used (calls : Tk) : list string :=
  omap (λ call, match call with ThemeUse n => Some n | _ => None end) calls.

Definition created (calls : Tk) : list (string * string) :=
  omap (λ call, match call with ThemeCreate n p => Some (n, p) | _ => None end)
       calls.

(** The theme named by the last [theme_use] call. *)
Definition theme_in_use (calls : Tk) : option string := last (used calls).

(** A [configure] or [map] call. *)
Definition is_styling (call : style_call) : bool :=
  match call with
  | Configure _ _ | Map _ _ => true
  | _ => false
  end.

(** [log_oblivious m]: what [m] returns, writes and calls depends on the
    fields of the [ThemeManager] and on the themes the toolkit has, not
    on the calls made before. *)
Definition log_oblivious {A} (m : M A) : Prop :=
  ∀ tm l l0,
    theme_names l = theme_names l0 →
    ∃ r tm' calls,
      m {| theme_manager := tm; tk := l |} =
        (r, {| theme_manager := tm'; tk := l ++ calls |}) ∧
      m {| theme_manager := tm; tk := l0 |} =
        (r, {| theme_manager := tm'; tk := l0 ++ calls |}).

(** The toolkit has the two themes of the program. *)
Definition themes_created (w : World) : Prop :=
  "light" ∈ theme_names (tk w) ∧ "dark" ∈ theme_names (tk w).

(** Calls after which the toolkit has the two themes, and the two
    [ThemeManager]s the invariant leaves. *)
Definition created_log : Tk :=
  [ThemeCreate "light" "alt"; ThemeCreate "dark" "alt"].

Definition ThemeManager_dark : ThemeManager :=
  {| current_theme := "dark"; themes := themes ThemeManager_init;
     style := ttk_Style |}.

(** The initial world once [setup_themes] has run. *)
Definition World_ready : World := run Setup_themes World_init.

(** The keys [_configure_theme] reads. *)
Definition used_colors : list string :=
  ["bg"; "fg"; "entry_bg"; "border"; "button_bg"; "primary"; "button_active";
   "select_bg"; "select_fg"].

Definition used_fonts : list string := ["default"; "heading"].

(** The theme has the colours and the fonts [_configure_theme] reads. *)
Definition has_used_keys (t : Theme) : Prop :=
  Forall (λ k, is_Some (colors t !! k)) used_colors ∧
  Forall (λ k, is_Some (fonts t !! k)) used_fonts.

(** [t] with the colour [k] deleted. *)
Definition without_color (k : string) (t : Theme) : Theme :=
  {| name := name t; colors := delete k (colors t); fonts := fonts t |}.

(** The toolkit uses the theme [current_theme] names. *)
Definition in_step (w : World) : Prop :=
  theme_in_use (tk w) = Some (current_theme (theme_manager w)).

(** A world whose light theme lacks the colour ["primary"], and one
    whose [themes] lacks the dark theme while the toolkit has it. *)
Definition World_no_primary : World :=
  {| theme_manager :=
       {| current_theme := "light";
          themes := [("light", without_color "primary" _get_light_theme);
                     ("dark", _get_dark_theme)];
          style := ttk_Style |};
     tk := [] |}.

Definition World_only_light : World :=
  {| theme_manager :=
       {| current_theme := "light";
          themes := [("light", _get_light_theme)];
          style := ttk_Style |};
     tk := created_log |}.

(** The body of the outer loop of [setup_styles]. *)
Definition configure_style (t : Theme) : string * list (string * pyval) → M unit :=
  λ '(style_name, style_config),
    resolved_config ← lift (resolve_config t style_config ∅);
    call_style (Configure style_name resolved_config).

(** Case analysis on membership in a list written out. *)
Ltac enumerate H :=
  repeat (apply elem_of_cons in H as [H | H]);
  [.. | by apply elem_of_nil in H].

(** * Properties *)

(** ** The model at work *)

Example toggle_from_init :
  (toggle_theme World_init).1 = Raise TclError ∧
  current_theme (theme_manager (toggle_theme World_init).2) = "dark".
Proof. split; reflexivity. Qed.

Example toggle_after_setup_themes :
  (toggle_theme World_ready).1 = Ok _get_dark_theme.
Proof. reflexivity. Qed.

Example get_style_unknown :
  (get_style "unknown" World_init).1 = Ok None.
Proof. reflexivity. Qed.

Example split_reference : PyStr.split "." "colors.button_bg" = ["colors"; "button_bg"].
Proof. reflexivity. Qed.

Example split_trailing : PyStr.split "." "a..b." = ["a"; ""; "b"; ""].
Proof. reflexivity. Qed.

Example setup_themes_init :
  (setup_themes World_init).1 = Ok tt ∧
  length (tk (setup_themes World_init).2) = 22%nat.
Proof. split; reflexivity. Qed.

Example resolve_heading :
  resolve_value _get_dark_theme (PStr "fonts.heading") = Ok (font_styled "Segoe UI" 12 "bold").
Proof. reflexivity. Qed.

(** ** What a computation leaves alone *)

Create HintDb frame discriminated.

Section Frame.
Context {A B : Type}.

Lemma pure_ret (a : A) : pure (mret a).
Proof. done. Qed.

Lemma pure_lift (r : result A) : pure (lift r).
Proof. done. Qed.

Lemma pure_bind (m : M A) (k : A → M B) :
  pure m → (∀ a, pure (k a)) → pure (m ≫= k).
Proof.
  intros Hm Hk w. unfold mbind, M_bind.
  specialize (Hm w). destruct (m w) as [[a|e] w']; simpl in *; subst; [apply Hk | done].
Qed.

Lemma pure_only_tk (m : M A) : pure m → only_tk m.
Proof. intros Hm w. by rewrite Hm. Qed.

Lemma only_tk_bind (m : M A) (k : A → M B) :
  only_tk m → (∀ a, only_tk (k a)) → only_tk (m ≫= k).
Proof.
  intros Hm Hk w. unfold mbind, M_bind.
  specialize (Hm w). destruct (m w) as [[a|e] w']; simpl in *; [|done].
  by rewrite Hk.
Qed.
End Frame.

Lemma only_tk_for_each {A} (xs : list A) (body : A → M unit) :
  (∀ x, only_tk (body x)) → only_tk (for_each xs body).
Proof.
  intros Hbody. induction xs as [|x xs IH]; simpl.
  - done.
  - apply only_tk_bind; auto.
Qed.

Lemma pure_get_self : pure get_self.
Proof. done. Qed.

Lemma only_tk_call_style c : only_tk (call_style c).
Proof. done. Qed.

#[local] Hint Resolve pure_ret pure_lift pure_get_self : frame.
#[local] Hint Resolve only_tk_call_style : frame.
#[local] Hint Extern 2 (pure (_ ≫= _)) => apply pure_bind; intros : frame.
#[local] Hint Extern 2 (only_tk (_ ≫= _)) => apply only_tk_bind; intros : frame.
#[local] Hint Extern 2 (only_tk (for_each _ _)) => apply only_tk_for_each; intros : frame.
#[local] Hint Extern 5 (only_tk _) => apply pure_only_tk : frame.

Lemma pure_get_current_theme : pure get_current_theme.
Proof. unfold get_current_theme. auto with frame. Qed.

Lemma pure_get_style style_name : pure (get_style style_name).
Proof.
  unfold get_style. destruct (String.eqb _ _); [|auto with frame].
  apply pure_bind; [apply pure_get_current_theme|]. auto with frame.
Qed.

Lemma only_tk_configure style_name kw : only_tk (configure style_name kw).
Proof. unfold configure. auto with frame. Qed.

Lemma only_tk_map_ style_name kw : only_tk (map_ style_name kw).
Proof. unfold map_. auto with frame. Qed.

#[local] Hint Resolve only_tk_configure only_tk_map_ : frame.

Lemma only_tk__configure_theme theme : only_tk (_configure_theme theme).
Proof. unfold _configure_theme. auto 20 with frame. Qed.

Lemma only_tk_setup_themes : only_tk setup_themes.
Proof.
  unfold setup_themes. apply only_tk_bind; [auto with frame|].
  intros self. apply only_tk_for_each, only_tk__configure_theme.
Qed.

Lemma only_tk_setup_styles self : only_tk (setup_styles self).
Proof.
  unfold setup_styles.
  apply only_tk_bind; [apply pure_only_tk, pure_get_current_theme|].
  intros t. apply only_tk_for_each. intros [style_name style_config].
  auto with frame.
Qed.

(** The world [toggle_theme] leaves behind, whatever it returns. *)
Lemma toggle_theme_world w :
  (toggle_theme w).2 =
  {| theme_manager :=
       {| current_theme := other_theme (current_theme (theme_manager w));
          themes := themes (theme_manager w);
          style := style (theme_manager w) |};
     tk := tk w ++ [ThemeUse (other_theme (current_theme (theme_manager w)))] |}.
Proof.
  unfold toggle_theme, mbind, M_bind, get_self, set_current_theme, call_style, lift.
  cbn [fst snd theme_manager tk current_theme themes style].
  by destruct (accepts _ _).
Qed.

(** What [toggle_theme] returns: what [theme_use] raises, or else the
    entry of [themes] under the new name. *)
Lemma toggle_theme_result w :
  (toggle_theme w).1 =
  (accepts (theme_names (tk w))
           (ThemeUse (other_theme (current_theme (theme_manager w))));;
   assoc (themes (theme_manager w))
         (other_theme (current_theme (theme_manager w)))).
Proof.
  unfold toggle_theme, mbind at 1 2 3 4 5, M_bind, get_self, set_current_theme,
    call_style, lift.
  cbn [fst snd theme_manager tk current_theme themes style].
  by destruct (accepts _ _) as [[]|].
Qed.

Lemma get_current_theme_result w :
  (get_current_theme w).1 =
  assoc (themes (theme_manager w)) (current_theme (theme_manager w)).
Proof. done. Qed.

(** ** The invariant of reachable worlds *)

Lemma two_themes_run m w : two_themes w → two_themes (run m w).
Proof.
  intros [Hthemes Hcur]. destruct m; unfold run.
  - unfold two_themes. by rewrite only_tk_setup_themes.
  - rewrite toggle_theme_world. split; [done|]. simpl.
    destruct Hcur as [-> | ->]; [by right | by left].
  - by rewrite pure_get_current_theme.
  - by rewrite pure_get_style.
  - unfold two_themes. by rewrite only_tk_setup_styles.
Qed.

Lemma reachable_two_themes w : reachable w → two_themes w.
Proof.
  induction 1 as [|m w _ IH].
  - split; [done | by left].
  - by apply two_themes_run.
Qed.

(** Which field a call writes: [toggle_theme] alone changes
    [current_theme]. *)
Lemma run_current_theme m w :
  current_theme (theme_manager (run m w)) =
  match m with
  | Toggle_theme => other_theme (current_theme (theme_manager w))
  | _ => current_theme (theme_manager w)
  end.
Proof.
  destruct m; unfold run.
  - by rewrite only_tk_setup_themes.
  - by rewrite toggle_theme_world.
  - by rewrite pure_get_current_theme.
  - by rewrite pure_get_style.
  - by rewrite only_tk_setup_styles.
Qed.

Lemma run_themes m w : themes (theme_manager (run m w)) = themes (theme_manager w).
Proof.
  destruct m; unfold run.
  - by rewrite only_tk_setup_themes.
  - by rewrite toggle_theme_world.
  - by rewrite pure_get_current_theme.
  - by rewrite pure_get_style.
  - by rewrite only_tk_setup_styles.
Qed.

Lemma reachable_active_theme w :
  reachable w →
  assoc (themes (theme_manager w)) (current_theme (theme_manager w)) =
    Ok (theme_named (current_theme (theme_manager w))).
Proof.
  intros [-> [-> | ->]]%reachable_two_themes; reflexivity.
Qed.

(** In a reachable world [toggle_theme] returns the record of the other
    theme when the toolkit has a theme of that name, and raises
    [TclError] when it has not. *)
Lemma toggle_theme_returns w :
  reachable w →
  other_theme (current_theme (theme_manager w)) ∈ theme_names (tk w) →
  (toggle_theme w).1 =
    Ok (theme_named (other_theme (current_theme (theme_manager w)))).
Proof.
  intros Hw Hin. rewrite toggle_theme_result. unfold accepts.
  rewrite bool_decide_eq_true_2 by done.
  by destruct (reachable_two_themes w Hw) as [-> [-> | ->]].
Qed.


Lemma reachable_World_dark : reachable World_dark.
Proof. repeat constructor. Qed.

(** ** Methods and the themes of the toolkit *)

Lemma theme_names_app l calls :
  theme_names (l ++ calls) = foldl register (theme_names l) calls.
Proof. apply foldl_app. Qed.

Lemma register_mono names call n : n ∈ names → n ∈ register names call.
Proof.
  intros Hn. destruct call as [n' p| | |]; simpl; try done.
  repeat case_bool_decide; try done. by apply list_elem_of_further.
Qed.

Lemma foldl_register_mono calls : ∀ names n,
  n ∈ names → n ∈ foldl register names calls.
Proof.
  induction calls as [|call calls IH]; intros names n Hn; simpl; [done|].
  by apply IH, register_mono.
Qed.

(** A theme the toolkit has, it keeps. *)
Lemma theme_names_mono l calls n :
  n ∈ theme_names l → n ∈ theme_names (l ++ calls).
Proof. rewrite theme_names_app. apply foldl_register_mono. Qed.

Lemma theme_names_alt l : "alt" ∈ theme_names l.
Proof.
  apply (theme_names_mono [] l). unfold theme_names, builtin_themes. simpl.
  compute_done.
Qed.

Section Oblivious.
Context {A B : Type}.

Lemma log_oblivious_ret (a : A) : log_oblivious (mret a).
Proof.
  intros tm l l0 _. exists (Ok a), tm, []. unfold mret, M_ret.
  by rewrite !app_nil_r.
Qed.

Lemma log_oblivious_lift (r : result A) : log_oblivious (lift r).
Proof.
  intros tm l l0 _. exists r, tm, []. unfold lift. by rewrite !app_nil_r.
Qed.

Lemma log_oblivious_bind (m : M A) (k : A → M B) :
  log_oblivious m → (∀ a, log_oblivious (k a)) → log_oblivious (m ≫= k).
Proof.
  intros Hm Hk tm l l0 Hnames. unfold mbind, M_bind.
  destruct (Hm tm l l0 Hnames) as (r & tm' & calls & -> & ->).
  destruct r as [a|e]; [|by exists (Raise e), tm', calls].
  destruct (Hk a tm' (l ++ calls) (l0 ++ calls)) as (r & tm'' & calls' & -> & ->).
  { by rewrite !theme_names_app, Hnames. }
  exists r, tm'', (calls ++ calls'). by rewrite !app_assoc.
Qed.
End Oblivious.

Lemma log_oblivious_get_self : log_oblivious get_self.
Proof.
  intros tm l l0 _. exists (Ok tm), tm, []. unfold get_self. simpl.
  by rewrite !app_nil_r.
Qed.

Lemma log_oblivious_set_current_theme n : log_oblivious (set_current_theme n).
Proof.
  intros tm l l0 _.
  exists (Ok tt), {| current_theme := n; themes := themes tm; style := style tm |}, [].
  unfold set_current_theme. simpl. by rewrite !app_nil_r.
Qed.

Lemma log_oblivious_call_style c : log_oblivious (call_style c).
Proof.
  intros tm l l0 Hnames. exists (accepts (theme_names l) c), tm, [c].
  unfold call_style. simpl. by rewrite Hnames.
Qed.

Lemma log_oblivious_for_each {A} (xs : list A) (body : A → M unit) :
  (∀ x, log_oblivious (body x)) → log_oblivious (for_each xs body).
Proof.
  intros Hbody. induction xs as [|x xs IH]; simpl.
  - apply log_oblivious_ret.
  - apply log_oblivious_bind; auto.
Qed.

Create HintDb oblivious discriminated.

#[local] Hint Resolve log_oblivious_ret log_oblivious_lift log_oblivious_get_self
  log_oblivious_set_current_theme log_oblivious_call_style : oblivious.
#[local] Hint Extern 2 (log_oblivious (_ ≫= _)) =>
  apply log_oblivious_bind; intros : oblivious.
#[local] Hint Extern 2 (log_oblivious (for_each _ _)) =>
  apply log_oblivious_for_each; intros : oblivious.

Lemma log_oblivious_get_current_theme : log_oblivious get_current_theme.
Proof. unfold get_current_theme. auto with oblivious. Qed.



Lemma log_oblivious__configure_theme theme : log_oblivious (_configure_theme theme).
Proof. unfold _configure_theme, configure, map_. auto 40 with oblivious. Qed.

Lemma log_oblivious_setup_themes : log_oblivious setup_themes.
Proof.
  unfold setup_themes. apply log_oblivious_bind; [auto with oblivious|].
  intros self. apply log_oblivious_for_each, log_oblivious__configure_theme.
Qed.

Lemma log_oblivious_setup_styles self : log_oblivious (setup_styles self).
Proof.
  unfold setup_styles.
  apply log_oblivious_bind; [apply log_oblivious_get_current_theme|].
  intros t. apply log_oblivious_for_each. intros [style_name style_config].
  auto with oblivious.
Qed.

(** A run from [l], read off the run from [l0]. *)
Lemma log_oblivious_run {A} (m : M A) tm l l0 :
  log_oblivious m →
  theme_names l = theme_names l0 →
  m {| theme_manager := tm; tk := l |} =
  ((m {| theme_manager := tm; tk := l0 |}).1,
   {| theme_manager := theme_manager (m {| theme_manager := tm; tk := l0 |}).2;
      tk := l ++ drop (length l0) (tk (m {| theme_manager := tm; tk := l0 |}).2) |}).
Proof.
  intros Hm Hnames. destruct (Hm tm l l0 Hnames) as (r & tm' & calls & -> & ->).
  simpl. by rewrite drop_app_length.
Qed.


(** A reachable [ThemeManager] is one of two. *)
Lemma reachable_theme_manager w :
  reachable w →
  theme_manager w = ThemeManager_init ∨ theme_manager w = ThemeManager_dark.
Proof.
  intros [Hthemes Hcur]%reachable_two_themes.
  destruct w as [[cur ths []] l]. simpl in *. subst ths.
  destruct Hcur as [-> | ->]; [by left | by right].
Qed.

(** In a reachable world the toolkit has its own themes, or these and
    the two of the program. *)
Lemma reachable_theme_names w :
  reachable w →
  theme_names (tk w) = theme_names [] ∨ theme_names (tk w) = theme_names created_log.
Proof.
  induction 1 as [|m w Hw IH]; [by left|].
  destruct m; unfold run.
  - destruct w as [tm l]. cbn [tk] in IH.
    apply reachable_theme_manager in Hw. cbn [theme_manager] in Hw.
    destruct IH as [IH | IH];
      rewrite (log_oblivious_run setup_themes tm l _ log_oblivious_setup_themes IH);
      cbn [snd tk]; rewrite theme_names_app, IH;
      destruct Hw as [-> | ->]; vm_compute; auto.
  - rewrite toggle_theme_world. cbn [tk]. by rewrite theme_names_app.
  - by rewrite pure_get_current_theme.
  - by rewrite pure_get_style.
  - destruct w as [tm l]. cbn [tk] in IH.
    apply reachable_theme_manager in Hw. cbn [theme_manager] in Hw.
    destruct IH as [IH | IH];
      rewrite (log_oblivious_run (setup_styles AppStyles_init) tm l _
                 (log_oblivious_setup_styles _) IH);
      cbn [snd tk]; rewrite theme_names_app, IH;
      destruct Hw as [-> | ->]; vm_compute; auto.
Qed.

Lemma themes_created_iff w :
  reachable w →
  (themes_created w ↔ theme_names (tk w) = theme_names created_log) ∧
  (¬ themes_created w ↔ theme_names (tk w) = theme_names []).
Proof.
  assert (¬ ("light" ∈ theme_names [] ∧ "dark" ∈ theme_names [])) as Hnone
    by compute_done.
  assert ("light" ∈ theme_names created_log ∧ "dark" ∈ theme_names created_log)
    as Hboth by compute_done.
  assert (theme_names [] ≠ theme_names created_log) as Hne by compute_done.
  intros [Hnames | Hnames]%reachable_theme_names; unfold themes_created;
    rewrite Hnames; intuition congruence.
Qed.

(** ** Switching themes *)

(** C2. In every reachable world, calling [toggle_theme] twice leaves
    [current_theme] equal to the name it had before the first call. *)
Theorem toggle_theme_involution w :
  reachable w →
  current_theme (theme_manager (toggle_theme (toggle_theme w).2).2) =
  current_theme (theme_manager w).
Proof.
  intros [_ Hcur]%reachable_two_themes.
  rewrite !toggle_theme_world. simpl.
  by destruct Hcur as [-> | ->].
Qed.

Lemma toggle_theme_involution_witness :
  reachable World_dark ∧
  current_theme (theme_manager (toggle_theme (toggle_theme World_dark).2).2) =
  current_theme (theme_manager World_dark).
Proof.
  split; [apply reachable_World_dark|].
  apply (toggle_theme_involution World_dark), reachable_World_dark.
Defined.

(** Outside the reachable worlds the name need not come back: from any
    third name two calls end on ["dark"]. *)
Example toggle_theme_third_name :
  let w := {| theme_manager := {| current_theme := "blue";
                                  themes := themes ThemeManager_init;
                                  style := ttk_Style |};
              tk := [] |} in
  current_theme (theme_manager (toggle_theme (toggle_theme w).2).2) = "dark".
Proof. reflexivity. Qed.


(** [setup_themes] leaves the toolkit with the two themes. *)
Lemma themes_created_setup_themes w :
  reachable w → themes_created (run Setup_themes w).
Proof.
  intros Hw. apply themes_created_iff; [by constructor|].
  unfold run. destruct w as [tm l].
  pose proof (reachable_theme_names _ Hw) as Hnames. cbn [tk] in Hnames.
  apply reachable_theme_manager in Hw. cbn [theme_manager] in Hw.
  destruct Hnames as [Hnames | Hnames];
    rewrite (log_oblivious_run setup_themes tm l _ log_oblivious_setup_themes Hnames);
    cbn [snd tk]; rewrite theme_names_app, Hnames;
    destruct Hw as [-> | ->]; vm_compute; reflexivity.
Qed.




(** C9. In every reachable world [current_theme] is ["light"] or
    ["dark"]: it starts as ["light"], [toggle_theme] maps each of the two
    names to the other and no other call writes the field.  So the
    lookups of [get_current_theme] and of [toggle_theme] in [themes] find
    an entry: the name [toggle_theme] has written has one,
    [toggle_theme] returns once the toolkit has the two themes, and what
    it may raise before is the toolkit's [TclError], never a
    [KeyError]. *)
Theorem current_theme_light_or_dark w :
  reachable w →
  (current_theme (theme_manager w) = "light" ∨
   current_theme (theme_manager w) = "dark") ∧
  current_theme (theme_manager World_init) = "light" ∧
  other_theme "light" = "dark" ∧ other_theme "dark" = "light" ∧
  (∀ m, current_theme (theme_manager (run m w)) =
        match m with
        | Toggle_theme => other_theme (current_theme (theme_manager w))
        | _ => current_theme (theme_manager w)
        end) ∧
  (∃ t, (get_current_theme w).1 = Ok t) ∧
  (∃ t, assoc (themes (theme_manager (toggle_theme w).2))
              (current_theme (theme_manager (toggle_theme w).2)) = Ok t) ∧
  (themes_created w → ∃ t, (toggle_theme w).1 = Ok t) ∧
  (∀ e, (toggle_theme w).1 = Raise e → e = TclError).
Proof.
  intros Hw. destruct (reachable_two_themes w Hw) as [Hthemes Hcur].
  pose proof (reachable_active_theme _ (reachable_run Toggle_theme w Hw)) as Hnew.
  unfold run in Hnew.
  split_and!; try done.
  - intros m. apply run_current_theme.
  - rewrite get_current_theme_result, reachable_active_theme by done. eauto.
  - rewrite Hnew. eauto.
  - intros [Hlight Hdark]. rewrite toggle_theme_returns; [eauto | done |].
    by destruct Hcur as [-> | ->].
  - intros e. rewrite toggle_theme_result.
    rewrite toggle_theme_world in Hnew.
    cbn [theme_manager current_theme themes] in Hnew. rewrite Hnew.
    unfold accepts. case_bool_decide; simpl; congruence.
Qed.

Lemma current_theme_light_or_dark_witness :
  reachable World_dark ∧
  (current_theme (theme_manager World_dark) = "light" ∨
   current_theme (theme_manager World_dark) = "dark").
Proof.
  split; [apply reachable_World_dark|].
  apply (current_theme_light_or_dark World_dark), reachable_World_dark.
Defined.

(** C8. The two theme records built at initialisation are never
    modified: no call changes [themes]; [get_current_theme] and
    [get_style] write nothing at all; of the fields of the
    [ThemeManager], [toggle_theme] writes [current_theme] only (the
    toolkit is told to use the theme of that name); and in every
    reachable world [themes] is the table [__init__] built. *)
Theorem themes_never_modified w style_name :
  themes (theme_manager (toggle_theme w).2) = themes (theme_manager w) ∧
  (get_current_theme w).2 = w ∧
  (get_style style_name w).2 = w ∧
  theme_manager (toggle_theme w).2 =
    {| current_theme := other_theme (current_theme (theme_manager w));
       themes := themes (theme_manager w);
       style := style (theme_manager w) |} ∧
  tk (toggle_theme w).2 =
    tk w ++ [ThemeUse (other_theme (current_theme (theme_manager w)))] ∧
  (∀ m, themes (theme_manager (run m w)) = themes (theme_manager w)) ∧
  (reachable w →
   themes (theme_manager w) =
     [("light", _get_light_theme); ("dark", _get_dark_theme)]).
Proof.
  split_and!.
  - by rewrite toggle_theme_world.
  - apply pure_get_current_theme.
  - apply pure_get_style.
  - by rewrite toggle_theme_world.
  - by rewrite toggle_theme_world.
  - intros m. apply run_themes.
  - by intros [-> _]%reachable_two_themes.
Qed.

Lemma themes_never_modified_witness :
  reachable World_dark ∧
  themes (theme_manager World_dark) =
    [("light", _get_light_theme); ("dark", _get_dark_theme)].
Proof.
  split; [apply reachable_World_dark|].
  apply (themes_never_modified World_dark "Action.TButton"), reachable_World_dark.
Defined.

(** ** [get_style] *)

Lemma get_style_other w style_name :
  style_name ≠ "Action.TButton" → get_style style_name w = (Ok None, w).
Proof.
  intros Hne%String.eqb_neq. unfold get_style. by rewrite Hne.
Qed.

Lemma get_style_button w t bg fg f :
  assoc (themes (theme_manager w)) (current_theme (theme_manager w)) = Ok t →
  colors t !! "button_bg" = Some bg →
  colors t !! "fg" = Some fg →
  fonts t !! "default" = Some f →
  get_style "Action.TButton" w =
    (Ok (Some (dict [("background", bg); ("foreground", fg);
                     ("font", f); ("padding", PInt 5)])), w).
Proof.
  intros Ht Hbg Hfg Hf.
  unfold get_style, get_current_theme, get_self, lift, eval_dict, eval_items, getitem.
  unfold mbind, M_bind, result_bind. simpl.
  by rewrite Ht, Hbg, Hfg, Hf.
Qed.

(** C4. In every reachable world [get_style "Action.TButton"] returns
    the dictionary whose entries are the active theme's
    [colors["button_bg"]] under [background], [colors["fg"]] under
    [foreground], [fonts["default"]] under [font] and 5 under [padding],
    and [get_style "unknown"] returns [None]; neither writes anything. *)
Theorem get_style_action_button w :
  reachable w →
  ∃ t bg fg f,
    (get_current_theme w).1 = Ok t ∧
    colors t !! "button_bg" = Some bg ∧
    colors t !! "fg" = Some fg ∧
    fonts t !! "default" = Some f ∧
    get_style "Action.TButton" w =
      (Ok (Some (dict [("background", bg); ("foreground", fg);
                       ("font", f); ("padding", PInt 5)])), w) ∧
    get_style "unknown" w = (Ok None, w).
Proof.
  intros Hw. pose proof (reachable_active_theme w Hw) as Ht.
  destruct (reachable_two_themes w Hw) as [_ Hcur].
  assert (∃ bg fg f,
    colors (theme_named (current_theme (theme_manager w))) !! "button_bg" = Some bg ∧
    colors (theme_named (current_theme (theme_manager w))) !! "fg" = Some fg ∧
    fonts (theme_named (current_theme (theme_manager w))) !! "default" = Some f)
    as (bg & fg & f & Hbg & Hfg & Hf).
  { destruct Hcur as [-> | ->]; do 3 eexists; split_and!; reflexivity. }
  exists (theme_named (current_theme (theme_manager w))), bg, fg, f.
  split_and!; [done.. | | by apply get_style_other].
  exact (get_style_button _ _ _ _ _ Ht Hbg Hfg Hf).
Qed.

Lemma get_style_action_button_witness :
  reachable World_dark ∧
  get_style "Action.TButton" World_dark =
    (Ok (Some (dict [("background", PStr "#3d3d3d"); ("foreground", PStr "#e0e0e0");
                     ("font", font "Segoe UI" 10); ("padding", PInt 5)])),
     World_dark).
Proof.
  split; [apply reachable_World_dark|].
  destruct (get_style_action_button World_dark reachable_World_dark)
    as (t & bg & fg & f & Ht & Hbg & Hfg & Hf & Hstyle & _).
  assert ((get_current_theme World_dark).1 = Ok _get_dark_theme) as Hdark
    by reflexivity.
  rewrite Hdark in Ht. injection Ht as <-.
  assert (Some bg = Some (PStr "#3d3d3d")) as [= ->] by (by rewrite <- Hbg).
  assert (Some fg = Some (PStr "#e0e0e0")) as [= ->] by (by rewrite <- Hfg).
  assert (Some f = Some (font "Segoe UI" 10)) as [= ->] by (by rewrite <- Hf).
  exact Hstyle.
Defined.

(** ** Resolution of one style *)

Lemma getitem_Ok d k v : getitem d k = Ok v ↔ d !! k = Some v.
Proof. unfold getitem. destruct (d !! k); naive_solver. Qed.

Section Resolve.
Variable t : Theme.

(** A value that is no reference passes through. *)
Lemma resolve_value_literal value :
  is_symbolic value = false → resolve_value t value = Ok value.
Proof.
  destruct value as [s| | |]; simpl; try done.
  intros [-> ->]%orb_false_elim. done.
Qed.

(** A resolved value is the value itself, or comes out of a table of
    the theme. *)
Lemma resolve_value_result value v :
  resolve_value t value = Ok v →
  is_symbolic value = false ∧ v = value ∨
  (∃ k, colors t !! k = Some v) ∨ (∃ k, fonts t !! k = Some v).
Proof.
  destruct value as [s| | |]; simpl; try (intros [= <-]; by left).
  destruct (PyStr.startswith "colors." s) eqn:Hc.
  - destruct (PyStr.index _ 1) as [k|]; simpl; [|done].
    intros Hk%getitem_Ok. right; left. eauto.
  - destruct (PyStr.startswith "fonts." s) eqn:Hf.
    + destruct (PyStr.index _ 1) as [k|]; simpl; [|done].
      intros Hk%getitem_Ok. right; right. eauto.
    + intros [= <-]. by left.
Qed.

Lemma resolve_value_not_symbolic value v :
  literal_theme t → resolve_value t value = Ok v → is_symbolic v = false.
Proof.
  intros Ht [[? ->] | [[k Hk] | [k Hk]]]%resolve_value_result; eauto.
Qed.

(** The inner loop returns when every value resolves. *)
Lemma resolve_config_total style_config : ∀ resolved_config,
  Forall (λ kv, is_Ok (resolve_value t kv.2)) style_config →
  is_Ok (resolve_config t style_config resolved_config).
Proof.
  induction style_config as [|[key value] rest IH]; intros acc Hall; simpl.
  - by eexists.
  - apply Forall_cons in Hall as [[v Hv] Hrest]. simpl in Hv.
    rewrite Hv. simpl. by apply IH.
Qed.

(** What the inner loop has stored under each key when it returns. *)
Lemma resolve_config_lookup style_config : ∀ resolved_config resolved,
  resolve_config t style_config resolved_config = Ok resolved →
  ∀ key,
    (key ∉ style_config.*1 → resolved !! key = resolved_config !! key) ∧
    (NoDup style_config.*1 → ∀ value, (key, value) ∈ style_config →
     ∃ v, resolve_value t value = Ok v ∧ resolved !! key = Some v).
Proof.
  induction style_config as [|[key0 value0] rest IH]; intros acc resolved; simpl.
  - intros [= <-] key. split; [done|]. intros _ value Hin. by apply elem_of_nil in Hin.
  - destruct (resolve_value t value0) as [v0|] eqn:Hv0; simpl; [|done].
    intros Hrest key. destruct (IH _ _ Hrest key) as [IHout IHin].
    split.
    + intros [Hne Hnotin]%not_elem_of_cons.
      rewrite IHout by done. by rewrite lookup_insert_ne.
    + intros [Hfresh Hnodup]%NoDup_cons value [Heq | Hin]%elem_of_cons.
      * injection Heq as -> ->. exists v0. split; [done|].
        destruct (IH _ _ Hrest key0) as [Hout _].
        rewrite Hout by done. by rewrite lookup_insert_eq.
      * by apply IHin.
Qed.

Lemma resolve_config_dom style_config : ∀ resolved_config resolved,
  resolve_config t style_config resolved_config = Ok resolved →
  dom resolved = dom resolved_config ∪ list_to_set style_config.*1.
Proof.
  induction style_config as [|[key0 value0] rest IH]; intros acc resolved; simpl.
  - intros [= <-]. set_solver.
  - destruct (resolve_value t value0) as [v0|]; simpl; [|done].
    intros ->%IH. rewrite dom_insert_L. set_solver.
Qed.
End Resolve.

(** ** The two themes and the table of styles *)

Lemma literal_light_theme : literal_theme _get_light_theme.
Proof.
  intros k v [H | H]; apply elem_of_list_to_map_2 in H;
    enumerate H; by injection H as -> ->.
Qed.

Lemma literal_dark_theme : literal_theme _get_dark_theme.
Proof.
  intros k v [H | H]; apply elem_of_list_to_map_2 in H;
    enumerate H; by injection H as -> ->.
Qed.

(** No style of the table names a property twice, and every value of
    the table resolves in both themes. *)
Lemma styles_resolve t :
  t = _get_light_theme ∨ t = _get_dark_theme →
  Forall (λ entry, NoDup entry.2.*1 ∧
                   Forall (λ kv, is_Ok (resolve_value t kv.2)) entry.2)
         (styles AppStyles_init).
Proof.
  intros [-> | ->]; simpl;
    repeat (apply Forall_cons; split); try apply Forall_nil;
    try (split; [simpl; compute_done|]);
    repeat (apply Forall_cons; split); try apply Forall_nil;
    by eexists.
Qed.

(** ** References *)

Lemma split_plain sep s : has_char sep s = false → PyStr.split sep s = [s].
Proof.
  induction s as [|a rest IH]; simpl; [done|].
  intros [-> Hrest]%orb_false_elim. by rewrite IH.
Qed.

(** A key with a dot in it is cut at the dot: [split('.')[1]] is the
    piece between the first dot and the second. *)
Example resolve_dotted_key t :
  resolve_value t (PStr "colors.select.bg") = getitem (colors t) "select".
Proof. reflexivity. Qed.

Section References.
Variable t : Theme.

Lemma resolve_value_colors k :
  has_char "." k = false →
  resolve_value t (PStr ("colors." +:+ k)) = getitem (colors t) k.
Proof.
  intros Hk. simpl. change ("" +:+ k) with k.
  rewrite split_plain by done. by destruct k.
Qed.

Lemma resolve_value_fonts k :
  has_char "." k = false →
  resolve_value t (PStr ("fonts." +:+ k)) = getitem (fonts t) k.
Proof.
  intros Hk. simpl. change ("" +:+ k) with k.
  rewrite split_plain by done. by destruct k.
Qed.
End References.

Lemma resolve_config_resolves_to t style_config resolved :
  literal_theme t →
  NoDup style_config.*1 →
  plain_refs style_config →
  resolve_config t style_config ∅ = Ok resolved →
  resolves_to t style_config resolved.
Proof.
  intros Ht Hnodup Hplain Hres. split_and!.
  - rewrite (resolve_config_dom _ _ _ _ Hres). set_solver.
  - intros key value Hin.
    destruct (resolve_config_lookup _ _ _ _ Hres key) as [_ Hkey].
    destruct (Hkey Hnodup value Hin) as (v & Hv & ->).
    split_and!.
    + intros k ->. rewrite resolve_value_colors in Hv by eauto using Hplain.
      apply getitem_Ok in Hv. by rewrite Hv.
    + intros k ->. rewrite resolve_value_fonts in Hv by eauto using Hplain.
      apply getitem_Ok in Hv. by rewrite Hv.
    + intros Hlit. rewrite resolve_value_literal in Hv by done. congruence.
  - intros key v Hv.
    destruct (resolve_config_lookup _ _ _ _ Hres key) as [Hout Hkey].
    destruct (decide (key ∈ style_config.*1)) as [Hin | Hnotin].
    + apply list_elem_of_fmap in Hin as ([key' value] & Heq & Hin).
      simpl in Heq. subst key'.
      destruct (Hkey Hnodup value Hin) as (v' & Hv' & Hlook).
      rewrite Hlook in Hv. injection Hv as <-.
      by eapply resolve_value_not_symbolic.
    + rewrite Hout in Hv by done. by rewrite lookup_empty in Hv.
Qed.

Lemma styles_plain_refs entry :
  entry ∈ styles AppStyles_init → plain_refs entry.2.
Proof.
  intros Hentry key value k Hin Hval. simpl in Hentry.
  enumerate Hentry; subst entry; simpl in Hin; enumerate Hin;
    injection Hin as -> ->; destruct Hval as [Hval | Hval];
    compute in Hval; by simplify_eq.
Qed.

(** ** [setup_styles] *)

Lemma get_current_theme_active w t :
  get_current_theme w = (Ok t, w) ↔
  assoc (themes (theme_manager w)) (current_theme (theme_manager w)) = Ok t.
Proof.
  unfold get_current_theme, get_self, lift, mbind, M_bind. simpl.
  split; [by intros [= ->] | by intros ->].
Qed.

(** The toolkit takes a [configure] call whose keywords are those of a
    style with plain properties. *)
Lemma accepts_configure names style_name kw :
  kw !! "self" = None → kw !! "style" = None →
  accepts names (Configure style_name kw) = Ok tt.
Proof. intros Hself Hstyle. simpl. by rewrite Hself, Hstyle. Qed.

Lemma accepts_resolved t names style_name style_config resolved :
  plain_properties style_config →
  resolve_config t style_config ∅ = Ok resolved →
  accepts names (Configure style_name resolved) = Ok tt.
Proof.
  intros (Hself & Hstyle & _) Hres. apply accepts_configure.
  - destruct (resolve_config_lookup _ _ _ _ Hres "self") as [-> _]; done.
  - destruct (resolve_config_lookup _ _ _ _ Hres "style") as [-> _]; done.
Qed.

Lemma styles_plain_properties :
  Forall (λ entry, plain_properties entry.2) (styles AppStyles_init).
Proof.
  simpl. repeat (apply Forall_cons; split); try apply Forall_nil;
    unfold plain_properties; simpl; compute_done.
Qed.

(** The outer loop: one [configure] call per style, in the order of the
    table, each with the configuration the inner loop returned. *)
Lemma setup_styles_loop t table :
  Forall (λ entry, is_Ok (resolve_config t entry.2 ∅) ∧
                   plain_properties entry.2) table →
  ∀ w, ∃ calls,
    for_each table (λ '(style_name, style_config),
      resolved_config ← lift (resolve_config t style_config ∅);
      call_style (Configure style_name resolved_config)) w =
    (Ok tt, {| theme_manager := theme_manager w; tk := tk w ++ calls |}) ∧
    Forall2 (λ entry call, ∃ resolved,
               resolve_config t entry.2 ∅ = Ok resolved ∧
               call = Configure entry.1 resolved) table calls.
Proof.
  induction table as [|[style_name style_config] table IH]; intros Hall w.
  - exists []. split; [|constructor]. destruct w. simpl. by rewrite app_nil_r.
  - apply Forall_cons in Hall as [[[resolved Hres] Hplain] Hall].
    cbn [snd] in Hres, Hplain.
    destruct (IH Hall {| theme_manager := theme_manager w;
                         tk := tk w ++ [Configure style_name resolved] |})
      as (calls & Hrun & Hcalls).
    exists (Configure style_name resolved :: calls). split.
    + cbn [theme_manager tk] in Hrun. rewrite <- app_assoc in Hrun.
      cbn [for_each]. unfold mbind at 1, M_bind.
      unfold mbind at 1, M_bind, lift at 1, call_style at 1. rewrite Hres.
      rewrite (accepts_resolved t _ _ _ _ Hplain Hres). exact Hrun.
    + constructor; [|done]. by exists resolved.
Qed.

(** With the light or the dark theme active every style resolves, so
    [setup_styles] returns after its seven calls. *)
Lemma setup_styles_calls t w :
  t = _get_light_theme ∨ t = _get_dark_theme →
  get_current_theme w = (Ok t, w) →
  ∃ calls,
    setup_styles AppStyles_init w =
      (Ok tt, {| theme_manager := theme_manager w; tk := tk w ++ calls |}) ∧
    Forall2 (λ entry call, ∃ resolved,
               resolve_config t entry.2 ∅ = Ok resolved ∧
               call = Configure entry.1 resolved)
            (styles AppStyles_init) calls.
Proof.
  intros Ht Hactive.
  destruct (setup_styles_loop t (styles AppStyles_init)) with (w := w)
    as (calls & Hrun & Hcalls).
  { apply Forall_and. split; [|apply styles_plain_properties].
    eapply Forall_impl; [exact (styles_resolve t Ht)|]. intros entry [_ Hvalues].
    by apply resolve_config_total. }
  exists calls. split; [|done].
  unfold setup_styles. unfold mbind at 1, M_bind. by rewrite Hactive.
Qed.

(** C1. With the light or the dark theme active, [setup_styles] returns
    after one [configure] call per style of the table, in order, and the
    dictionary passed for a style holds only literal values: under a
    property whose value in the table is ["colors.<k>"] it holds the
    theme's [colors[<k>]], under one whose value is ["fonts.<k>"] the
    theme's [fonts[<k>]], under any other the table's value unchanged,
    and no value of it starts with ["colors."] or ["fonts."]. *)
Theorem setup_styles_resolves t w :
  t = _get_light_theme ∨ t = _get_dark_theme →
  get_current_theme w = (Ok t, w) →
  ∃ calls,
    setup_styles AppStyles_init w =
      (Ok tt, {| theme_manager := theme_manager w; tk := tk w ++ calls |}) ∧
    Forall2 (λ entry call, ∃ resolved,
               call = Configure entry.1 resolved ∧
               resolve_config t entry.2 ∅ = Ok resolved ∧
               resolves_to t entry.2 resolved)
            (styles AppStyles_init) calls.
Proof.
  intros Ht Hactive.
  pose proof (styles_resolve t Ht) as Htable.
  assert (literal_theme t) as Hliteral.
  { destruct Ht as [-> | ->]; [apply literal_light_theme | apply literal_dark_theme]. }
  destruct (setup_styles_calls t w Ht Hactive) as (calls & Hrun & Hcalls).
  exists calls. split; [done|].
  - apply Forall2_same_length_lookup. split; [by eapply Forall2_length|].
    intros i entry call Hentry Hcall.
    destruct (Forall2_lookup_lr _ _ _ _ _ _ Hcalls Hentry Hcall)
      as (resolved & Hres & ->).
    exists resolved. split_and!; [done..|].
    apply list_elem_of_lookup_2 in Hentry.
    apply resolve_config_resolves_to; [done | | by apply styles_plain_refs | done].
    by apply (proj1 (Forall_forall _ _) Htable entry Hentry).
Qed.

Lemma setup_styles_resolves_witness :
  (_get_light_theme = _get_light_theme ∨ _get_light_theme = _get_dark_theme) ∧
  get_current_theme World_init = (Ok _get_light_theme, World_init) ∧
  ∃ calls,
    setup_styles AppStyles_init World_init =
      (Ok tt, {| theme_manager := theme_manager World_init;
                 tk := tk World_init ++ calls |}) ∧
    Forall2 (λ entry call, ∃ resolved,
               call = Configure entry.1 resolved ∧
               resolve_config _get_light_theme entry.2 ∅ = Ok resolved ∧
               resolves_to _get_light_theme entry.2 resolved)
            (styles AppStyles_init) calls.
Proof.
  split; [by left|]. split; [reflexivity|].
  apply (setup_styles_resolves _get_light_theme World_init); [by left | reflexivity].
Defined.

Lemma resolve_header_light :
  resolve_config _get_light_theme
    [("font", PStr "fonts.heading"); ("background", PStr "colors.bg");
     ("foreground", PStr "colors.primary")] ∅ =
  Ok (dict [("font", font_styled "Segoe UI" 12 "bold");
            ("background", PStr "#f8f9fa"); ("foreground", PStr "#4a6fa5")]).
Proof. reflexivity. Qed.

Lemma resolve_header_dark :
  resolve_config _get_dark_theme
    [("font", PStr "fonts.heading"); ("background", PStr "colors.bg");
     ("foreground", PStr "colors.primary")] ∅ =
  Ok (dict [("font", font_styled "Segoe UI" 12 "bold");
            ("background", PStr "#2d2d2d"); ("foreground", PStr "#5a86c2")]).
Proof. reflexivity. Qed.

(** The one dictionary [setup_styles] passes for ["Header.TLabel"] is
    the resolution of that style against the active theme. *)
Lemma setup_styles_header t w resolved :
  t = _get_light_theme ∨ t = _get_dark_theme →
  get_current_theme w = (Ok t, w) →
  resolve_config t
    [("font", PStr "fonts.heading"); ("background", PStr "colors.bg");
     ("foreground", PStr "colors.primary")] ∅ = Ok resolved →
  (setup_styles AppStyles_init w).1 = Ok tt ∧
  configured "Header.TLabel" (new_calls w (setup_styles AppStyles_init w).2) =
    [resolved].
Proof.
  intros Ht Hactive Hres.
  destruct (setup_styles_calls t w Ht Hactive) as (calls & -> & Hcalls).
  split; [done|]. unfold new_calls. simpl. rewrite drop_app_length.
  simpl in Hcalls.
  repeat (apply Forall2_cons_inv_l in Hcalls
            as (? & ? & (? & ? & ->) & Hcalls & ->)).
  apply Forall2_nil_inv_l in Hcalls as ->.
  simpl in *. congruence.
Qed.

(** C3. With ["light"] active, what [setup_styles] passes for
    ["Header.TLabel"] is exactly [{font: ("Segoe UI", 12, "bold"),
    background: "#f8f9fa", foreground: "#4a6fa5"}]; after [toggle_theme]
    has made ["dark"] active, what it passes is exactly
    [{font: ("Segoe UI", 12, "bold"), background: "#2d2d2d",
    foreground: "#5a86c2"}]. *)
Theorem header_label_light_then_dark w :
  reachable w →
  current_theme (theme_manager w) = "light" →
  let w1 := (setup_styles AppStyles_init w).2 in
  let w2 := (toggle_theme w1).2 in
  let w3 := (setup_styles AppStyles_init w2).2 in
  configured "Header.TLabel" (new_calls w w1) =
    [dict [("font", font_styled "Segoe UI" 12 "bold");
           ("background", PStr "#f8f9fa"); ("foreground", PStr "#4a6fa5")]] ∧
  current_theme (theme_manager w2) = "dark" ∧
  configured "Header.TLabel" (new_calls w2 w3) =
    [dict [("font", font_styled "Segoe UI" 12 "bold");
           ("background", PStr "#2d2d2d"); ("foreground", PStr "#5a86c2")]].
Proof.
  intros Hw Hlight w1 w2 w3.
  assert (reachable w2) as Hw2.
  { apply (reachable_run Toggle_theme), (reachable_run Setup_styles), Hw. }
  assert (current_theme (theme_manager w2) = "dark") as Hdark.
  { unfold w2, w1. rewrite toggle_theme_world. simpl.
    by rewrite only_tk_setup_styles, Hlight. }
  pose proof (reachable_active_theme w Hw) as Ht.
  pose proof (reachable_active_theme w2 Hw2) as Ht2.
  apply get_current_theme_active in Ht, Ht2.
  rewrite Hlight in Ht. rewrite Hdark in Ht2.
  split_and!; [|done|].
  - by apply (setup_styles_header _get_light_theme w _ (or_introl eq_refl) Ht),
             resolve_header_light.
  - by apply (setup_styles_header _get_dark_theme w2 _ (or_intror eq_refl) Ht2),
             resolve_header_dark.
Qed.

Lemma header_label_light_then_dark_witness :
  reachable World_init ∧
  current_theme (theme_manager World_init) = "light" ∧
  configured "Header.TLabel"
    (new_calls World_init (setup_styles AppStyles_init World_init).2) =
    [dict [("font", font_styled "Segoe UI" 12 "bold");
           ("background", PStr "#f8f9fa"); ("foreground", PStr "#4a6fa5")]].
Proof.
  split; [apply reachable_init|]. split; [reflexivity|].
  apply (header_label_light_then_dark World_init); [apply reachable_init | reflexivity].
Defined.

(** ** [get_style] and the table of styles *)

Lemma resolve_button_light :
  resolve_config _get_light_theme
    [("font", PStr "fonts.default"); ("padding", PInt 5);
     ("background", PStr "colors.button_bg"); ("foreground", PStr "colors.fg")] ∅ =
  Ok (dict [("background", PStr "#e9ecef"); ("foreground", PStr "#212529");
            ("font", font "Segoe UI" 10); ("padding", PInt 5)]).
Proof. reflexivity. Qed.

Lemma resolve_button_dark :
  resolve_config _get_dark_theme
    [("font", PStr "fonts.default"); ("padding", PInt 5);
     ("background", PStr "colors.button_bg"); ("foreground", PStr "colors.fg")] ∅ =
  Ok (dict [("background", PStr "#3d3d3d"); ("foreground", PStr "#e0e0e0");
            ("font", font "Segoe UI" 10); ("padding", PInt 5)]).
Proof. reflexivity. Qed.

(** The claim C5 as it stands fails: ["Header.TLabel"] is a style of the
    table, and in the initial world [get_style] returns [None] for it. *)
Lemma get_style_misses_header_label :
  "Header.TLabel" ∈ (styles AppStyles_init).*1 ∧
  reachable World_init ∧
  get_style "Header.TLabel" World_init = (Ok None, World_init) ∧
  ¬ (∀ w style_name,
       reachable w → style_name ∈ (styles AppStyles_init).*1 →
       ∃ d, (get_style style_name w).1 = Ok (Some d)).
Proof.
  assert ("Header.TLabel" ∈ (styles AppStyles_init).*1) as Hin.
  { simpl. compute_done. }
  split_and!; [done | apply reachable_init | reflexivity |].
  intros Hall. by destruct (Hall World_init "Header.TLabel" reachable_init Hin).
Qed.

(** C5, amended. In every reachable world [get_style] returns a
    dictionary for the one name ["Action.TButton"], namely the
    resolution of that style of the table against the current theme; for
    every other name, the six other names of the table included, it
    returns [None]. *)
Theorem get_style_only_action_button w style_name :
  reachable w →
  ∃ t, get_current_theme w = (Ok t, w) ∧
    (style_name = "Action.TButton" →
     ∃ style_config resolved,
       assoc (styles AppStyles_init) style_name = Ok style_config ∧
       resolve_config t style_config ∅ = Ok resolved ∧
       get_style style_name w = (Ok (Some resolved), w)) ∧
    (style_name ≠ "Action.TButton" → get_style style_name w = (Ok None, w)).
Proof.
  intros Hw. pose proof (reachable_active_theme w Hw) as Ht.
  destruct (reachable_two_themes w Hw) as [_ Hcur].
  exists (theme_named (current_theme (theme_manager w))).
  split_and!; [by apply get_current_theme_active | | apply get_style_other].
  intros ->. eexists.
  destruct Hcur as [Hcur | Hcur]; rewrite Hcur.
  - eexists. split_and!; [reflexivity | apply resolve_button_light |].
    apply (get_style_button w _ _ _ _ Ht); by rewrite Hcur.
  - eexists. split_and!; [reflexivity | apply resolve_button_dark |].
    apply (get_style_button w _ _ _ _ Ht); by rewrite Hcur.
Qed.

Lemma get_style_only_action_button_witness :
  reachable World_dark ∧
  get_style "Header.TLabel" World_dark = (Ok None, World_dark).
Proof.
  split; [apply reachable_World_dark|].
  destruct (get_style_only_action_button World_dark "Header.TLabel"
              reachable_World_dark) as (t & _ & _ & Hother).
  by apply Hother.
Defined.

(** ** The themes cover the table *)

Lemma reference_key_present t entry key value :
  t = _get_light_theme ∨ t = _get_dark_theme →
  entry ∈ styles AppStyles_init →
  (key, value) ∈ entry.2 →
  (∀ k, value = PStr ("colors." +:+ k) → is_Some (colors t !! k)) ∧
  (∀ k, value = PStr ("fonts." +:+ k) → is_Some (fonts t !! k)) ∧
  is_Ok (resolve_value t value).
Proof.
  intros Ht Hentry Hin.
  pose proof (proj1 (Forall_forall _ _) (styles_resolve t Ht) entry Hentry)
    as [_ Hvalues].
  pose proof (proj1 (Forall_forall _ _) Hvalues (key, value) Hin) as [v Hv].
  simpl in Hv. pose proof (styles_plain_refs entry Hentry) as Hplain.
  split_and!; [| | by exists v].
  - intros k ->. rewrite resolve_value_colors in Hv by eauto using Hplain.
    apply getitem_Ok in Hv. by exists v.
  - intros k ->. rewrite resolve_value_fonts in Hv by eauto using Hplain.
    apply getitem_Ok in Hv. by exists v.
Qed.

(** C7. Every reference ["colors.<k>"] or ["fonts.<k>"] that is a value
    of the table names a key of the light and of the dark theme's
    [colors], respectively [fonts]; so with either theme active every
    value and every style resolves, and [setup_styles] returns without
    raising. *)
Theorem references_resolve entry key value :
  entry ∈ styles AppStyles_init →
  (key, value) ∈ entry.2 →
  (∀ k, value = PStr ("colors." +:+ k) →
        is_Some (colors _get_light_theme !! k) ∧
        is_Some (colors _get_dark_theme !! k)) ∧
  (∀ k, value = PStr ("fonts." +:+ k) →
        is_Some (fonts _get_light_theme !! k) ∧
        is_Some (fonts _get_dark_theme !! k)) ∧
  (∀ t, t = _get_light_theme ∨ t = _get_dark_theme →
        is_Ok (resolve_value t value) ∧
        is_Ok (resolve_config t entry.2 ∅) ∧
        ∀ w, get_current_theme w = (Ok t, w) →
             (setup_styles AppStyles_init w).1 = Ok tt).
Proof.
  intros Hentry Hin.
  destruct (reference_key_present _get_light_theme entry key value)
    as (Hcl & Hfl & _); [by left | done.. |].
  destruct (reference_key_present _get_dark_theme entry key value)
    as (Hcd & Hfd & _); [by right | done.. |].
  split_and!; [by auto.. |].
  intros t Ht.
  destruct (reference_key_present t entry key value) as (_ & _ & Hv); [done..|].
  split_and!; [done | |].
  - apply resolve_config_total.
    by apply (proj1 (Forall_forall _ _) (styles_resolve t Ht) entry Hentry).
  - intros w Hactive.
    by destruct (setup_styles_calls t w Ht Hactive) as (calls & -> & _).
Qed.

Lemma references_resolve_witness :
  ("Treeview.Heading",
   [("font", PStr "fonts.heading"); ("background", PStr "colors.button_bg");
    ("foreground", PStr "colors.fg")]) ∈ styles AppStyles_init ∧
  is_Some (colors _get_light_theme !! "button_bg") ∧
  is_Some (colors _get_dark_theme !! "button_bg").
Proof.
  assert (("Treeview.Heading",
           [("font", PStr "fonts.heading"); ("background", PStr "colors.button_bg");
            ("foreground", PStr "colors.fg")]) ∈ styles AppStyles_init) as Hentry.
  { simpl. repeat constructor. }
  split; [exact Hentry|].
  refine (proj1 (references_resolve _ "background" (PStr "colors.button_bg")
                   Hentry _) "button_bg" eq_refl).
  simpl. repeat constructor.
Defined.

(** ** The two themes side by side *)

Lemma themes_same_color_keys :
  dom (colors _get_light_theme) = dom (colors _get_dark_theme).
Proof.
  unfold _get_light_theme, _get_dark_theme, dict. cbn [colors].
  by rewrite !dom_list_to_map_L.
Qed.

Lemma themes_same_fonts : fonts _get_light_theme = fonts _get_dark_theme.
Proof. reflexivity. Qed.

(** C10. The light and the dark theme have the same set of colour keys
    and the same [fonts] mapping.  So a colour key present in one is
    present in the other, a value that is no colour reference resolves
    to the same value in both, and in a reachable world the theme
    [toggle_theme] makes current, the one [get_current_theme] returns
    after it and [toggle_theme] itself returns once the toolkit has the
    two themes, has the fonts and the colour keys of the theme that was
    active. *)
Theorem themes_same_keys :
  dom (colors _get_light_theme) = dom (colors _get_dark_theme) ∧
  fonts _get_light_theme = fonts _get_dark_theme ∧
  (∀ k, is_Some (colors _get_light_theme !! k) ↔
        is_Some (colors _get_dark_theme !! k)) ∧
  (∀ k, fonts _get_light_theme !! k = fonts _get_dark_theme !! k) ∧
  (∀ s, PyStr.startswith "colors." s = false →
        resolve_value _get_light_theme (PStr s) =
        resolve_value _get_dark_theme (PStr s)) ∧
  (∀ w, reachable w →
        ∃ t t', (get_current_theme w).1 = Ok t ∧
                (get_current_theme (toggle_theme w).2).1 = Ok t' ∧
                (themes_created w → (toggle_theme w).1 = Ok t') ∧
                fonts t' = fonts t ∧
                dom (colors t') = dom (colors t)).
Proof.
  split_and!.
  - apply themes_same_color_keys.
  - apply themes_same_fonts.
  - intros k. rewrite <- !elem_of_dom. by rewrite themes_same_color_keys.
  - intros k. by rewrite themes_same_fonts.
  - intros s Hs. unfold resolve_value. rewrite Hs. by rewrite themes_same_fonts.
  - intros w Hw.
    pose proof (reachable_active_theme w Hw) as Ht.
    pose proof (reachable_active_theme _ (reachable_run Toggle_theme w Hw)) as Ht'.
    unfold run in Ht'. rewrite !get_current_theme_result, Ht, Ht'.
    rewrite toggle_theme_world. cbn [theme_manager current_theme].
    destruct (reachable_two_themes w Hw) as [_ Hcur].
    do 2 eexists. split_and!; [done | done | | |].
    { intros [Hlight Hdark]. apply toggle_theme_returns; [done|].
      by destruct Hcur as [-> | ->]. }
    all:
      destruct (reachable_two_themes w Hw) as [_ [-> | ->]];
      change (theme_named (other_theme "light")) with _get_dark_theme;
      change (theme_named (other_theme "dark")) with _get_light_theme;
      change (theme_named "light") with _get_light_theme;
      change (theme_named "dark") with _get_dark_theme;
      by rewrite ?themes_same_fonts, ?themes_same_color_keys.
Qed.

Lemma themes_same_keys_witness :
  reachable World_dark ∧
  ∃ t t', (get_current_theme World_dark).1 = Ok t ∧
          (get_current_theme (toggle_theme World_dark).2).1 = Ok t' ∧
          (themes_created World_dark → (toggle_theme World_dark).1 = Ok t') ∧
          fonts t' = fonts t ∧
          dom (colors t') = dom (colors t).
Proof.
  split; [apply reachable_World_dark|].
  apply themes_same_keys, reachable_World_dark.
Defined.


(** * Further properties *)

Lemma used_app l1 l2 : used (l1 ++ l2) = used l1 ++ used l2.
Proof. apply omap_app. Qed.

Lemma created_app l1 l2 : created (l1 ++ l2) = created l1 ++ created l2.
Proof. apply omap_app. Qed.

Lemma theme_in_use_app l1 l2 n :
  theme_in_use l2 = Some n → theme_in_use (l1 ++ l2) = Some n.
Proof.
  unfold theme_in_use. rewrite used_app.
  destruct (used l2) as [|x xs] using rev_ind; [done|].
  rewrite app_assoc, !last_snoc. done.
Qed.

Lemma styling_not_switching calls :
  Forall (λ call, is_styling call = true) calls → created calls = [] ∧ used calls = [].
Proof.
  induction 1 as [|[] calls Hcall _ [IHc IHu]]; simpl; try done.
Qed.

(** [configure] and [map] calls leave the toolkit's themes as they
    are. *)
Lemma theme_names_styling l calls :
  Forall (λ call, is_styling call = true) calls →
  theme_names (l ++ calls) = theme_names l.
Proof.
  intros Hcalls. rewrite theme_names_app. generalize (theme_names l).
  induction Hcalls as [|[] calls Hcall _ IH]; intros names; simpl; try done;
    apply IH.
Qed.

(** ** The toolkit and its themes *)

Lemma accepts_create names n :
  n ∉ names → "alt" ∈ names → accepts names (ThemeCreate n "alt") = Ok tt.
Proof.
  intros Hn Halt. simpl.
  by rewrite bool_decide_eq_false_2, bool_decide_eq_true_2.
Qed.

Lemma accepts_create_again names n p :
  n ∈ names → accepts names (ThemeCreate n p) = Raise TclError.
Proof. intros Hn. simpl. by rewrite bool_decide_eq_true_2. Qed.

Lemma theme_names_create l n :
  n ∉ theme_names l → theme_names (l ++ [ThemeCreate n "alt"]) = n :: theme_names l.
Proof.
  intros Hn. rewrite theme_names_app. simpl.
  rewrite bool_decide_eq_false_2 by done.
  by rewrite bool_decide_eq_true_2 by apply theme_names_alt.
Qed.

Lemma theme_names_create_again l n p :
  n ∈ theme_names l → theme_names (l ++ [ThemeCreate n p]) = theme_names l.
Proof.
  intros Hn. rewrite theme_names_app. simpl. by rewrite bool_decide_eq_true_2.
Qed.

Lemma accepts_use names n : n ∈ names → accepts names (ThemeUse n) = Ok tt.
Proof. intros Hn. simpl. by rewrite bool_decide_eq_true_2. Qed.

(** The themes the toolkit has once a theme is created, put in use and
    styled. *)
Lemma theme_names_created l n calls :
  n ∉ theme_names l →
  Forall (λ call, is_styling call = true) calls →
  theme_names (l ++ ThemeCreate n "alt" :: ThemeUse n :: calls) = n :: theme_names l.
Proof.
  intros Hn Hcalls.
  change (ThemeCreate n "alt" :: ThemeUse n :: calls)
    with ([ThemeCreate n "alt"] ++ [ThemeUse n] ++ calls).
  rewrite !app_assoc, theme_names_styling by done.
  rewrite (theme_names_app _ [ThemeUse n]). simpl. by apply theme_names_create.
Qed.

(** A call through [self.style], then the rest of the method. *)
Lemma bind_call_style {A} c (k : M A) w :
  (call_style c;; k) w =
  match accepts (theme_names (tk w)) c with
  | Ok _ => k {| theme_manager := theme_manager w; tk := tk w ++ [c] |}
  | Raise e => (Raise e, {| theme_manager := theme_manager w; tk := tk w ++ [c] |})
  end.
Proof. unfold mbind, M_bind, call_style. by destruct (accepts _ _). Qed.

(** ** [setup_themes] *)

(** The first run, and any later one. *)
Lemma setup_themes_first w :
  reachable w → ¬ themes_created w →
  ∃ calls,
    setup_themes w =
      (Ok tt, {| theme_manager := theme_manager w; tk := tk w ++ calls |}) ∧
    length calls = 22%nat ∧
    created calls = [("light", "alt"); ("dark", "alt")] ∧
    used calls = ["light"; "dark"].
Proof.
  intros Hw Hnot.
  destruct (themes_created_iff w Hw) as [_ [Hnames _]]. apply Hnames in Hnot.
  clear Hnames.
  destruct w as [tm l]. cbn [tk theme_manager] in *.
  assert ((setup_themes {| theme_manager := tm; tk := [] |}).1 = Ok tt ∧
          let calls := tk (setup_themes {| theme_manager := tm; tk := [] |}).2 in
          length calls = 22%nat ∧
          created calls = [("light", "alt"); ("dark", "alt")] ∧
          used calls = ["light"; "dark"]) as (Hret & Hlen & Hcreated & Hused).
  { apply reachable_theme_manager in Hw as [Htm | Htm]; cbn [theme_manager] in Htm;
      subst tm; vm_compute; repeat split; reflexivity. }
  pose proof (only_tk_setup_themes {| theme_manager := tm; tk := [] |}) as Hframe.
  rewrite (log_oblivious_run setup_themes tm l [] log_oblivious_setup_themes Hnot).
  destruct (setup_themes {| theme_manager := tm; tk := [] |}) as [r [tm' calls]].
  cbn [fst snd theme_manager tk length drop] in *. subst r tm'.
  by exists calls.
Qed.

Lemma setup_themes_again w :
  reachable w → themes_created w →
  setup_themes w =
    (Raise TclError,
     {| theme_manager := theme_manager w;
        tk := tk w ++ [ThemeCreate "light" "alt"] |}).
Proof.
  intros Hw Hcreated.
  destruct (themes_created_iff w Hw) as [[Hnames _] _]. apply Hnames in Hcreated.
  clear Hnames.
  destruct w as [tm l]. cbn [tk theme_manager] in *.
  rewrite (log_oblivious_run setup_themes tm l created_log
             log_oblivious_setup_themes Hcreated).
  apply reachable_theme_manager in Hw as [Htm | Htm]; cbn [theme_manager] in Htm;
    subst tm; reflexivity.
Qed.

(** X1. [setup_themes] works once.  In a reachable world where the
    toolkit has not the two themes yet, it returns after 22 calls: it
    creates ["light"] and then ["dark"], each with parent ["alt"], and
    puts each in use as it goes, so that the theme left in use is
    ["dark"], whatever [current_theme] says, and the toolkit has the two
    themes from then on.  In a reachable world where the toolkit has
    them, it raises [TclError] at its first [theme_create], the one call
    it makes.  No field of the [ThemeManager] is written either way. *)
Theorem setup_themes_leaves_dark_in_use w :
  reachable w →
  theme_manager (setup_themes w).2 = theme_manager w ∧
  (¬ themes_created w →
   ∃ calls,
     setup_themes w =
       (Ok tt, {| theme_manager := theme_manager w; tk := tk w ++ calls |}) ∧
     length calls = 22%nat ∧
     created calls = [("light", "alt"); ("dark", "alt")] ∧
     used calls = ["light"; "dark"] ∧
     theme_in_use (tk (setup_themes w).2) = Some "dark" ∧
     themes_created (setup_themes w).2) ∧
  (themes_created w →
   setup_themes w =
     (Raise TclError,
      {| theme_manager := theme_manager w;
         tk := tk w ++ [ThemeCreate "light" "alt"] |})).
Proof.
  intros Hw. split_and!.
  - apply only_tk_setup_themes.
  - intros (calls & Hrun & Hlen & Hcreated & Hused)%setup_themes_first; [|done].
    exists calls. split_and!; [done..| |].
    + rewrite Hrun. cbn [snd tk]. apply theme_in_use_app. unfold theme_in_use.
      by rewrite Hused.
    + by apply (themes_created_setup_themes w).
  - by apply setup_themes_again.
Qed.

Lemma setup_themes_leaves_dark_in_use_witness :
  reachable World_init ∧
  ¬ themes_created World_init ∧
  current_theme (theme_manager (setup_themes World_init).2) = "light" ∧
  theme_in_use (tk (setup_themes World_init).2) = Some "dark" ∧
  reachable World_ready ∧
  themes_created World_ready ∧
  (setup_themes World_ready).1 = Raise TclError.
Proof.
  assert (¬ themes_created World_init) as Hnot.
  { unfold themes_created. compute_done. }
  assert (reachable World_ready) as Hready by repeat constructor.
  destruct (setup_themes_leaves_dark_in_use World_init reachable_init)
    as (Htm & Hfirst & _).
  destruct (Hfirst Hnot) as (calls & _ & _ & _ & _ & Hdark & Hcreated).
  destruct (setup_themes_leaves_dark_in_use World_ready Hready)
    as (_ & _ & Hagain).
  split_and!; [apply reachable_init | exact Hnot | by rewrite Htm | exact Hdark
              | exact Hready | exact Hcreated |].
  by rewrite (Hagain Hcreated).
Defined.

(** ** [_configure_theme] *)

Lemma getitem_Raise d k e : getitem d k = Raise e → d !! k = None ∧ e = KeyError k.
Proof. unfold getitem. destruct (d !! k); naive_solver. Qed.

Lemma getitem_ext d d' k : d !! k = d' !! k → getitem d k = getitem d' k.
Proof. unfold getitem. by intros ->. Qed.

Lemma dict_lookup_fresh items k : k ∉ items.*1 → dict items !! k = None.
Proof. apply not_elem_of_list_to_map_1. Qed.

(** The toolkit takes a [configure] or [map] call whose keywords are
    written out in the source and are not [self] or [style]. *)
Lemma accepts_configure_dict names style_name items :
  "self" ∉ items.*1 → "style" ∉ items.*1 →
  accepts names (Configure style_name (dict items)) = Ok tt.
Proof. intros Hself Hstyle. simpl. by rewrite !dict_lookup_fresh. Qed.

Lemma accepts_map_dict names style_name items :
  "self" ∉ items.*1 → "style" ∉ items.*1 →
  accepts names (Map style_name (dict items)) = Ok tt.
Proof. intros Hself Hstyle. simpl. by rewrite !dict_lookup_fresh. Qed.

(** A theme the toolkit has already: [theme_create] raises, and nothing
    else is called. *)
Lemma _configure_theme_refused theme w :
  name theme ∈ theme_names (tk w) →
  _configure_theme theme w =
    (Raise TclError,
     {| theme_manager := theme_manager w;
        tk := tk w ++ [ThemeCreate (name theme) "alt"] |}).
Proof.
  intros Hin. unfold _configure_theme. cbv zeta.
  by rewrite bind_call_style, accepts_create_again.
Qed.

Lemma eval_items_keys items : ∀ vs, eval_items items = Ok vs → vs.*1 = items.*1.
Proof.
  induction items as [|[k e] items IH]; intros vs; simpl.
  - by intros [= <-].
  - destruct e as [v|x]; simpl; [|done].
    destruct (eval_items items) as [vs'|x]; simpl; [|done].
    intros [= <-]. simpl. f_equal. by apply IH.
Qed.

(** A [configure] or [map] call whose keywords are written out in the
    source: the values are evaluated, then the toolkit takes the call. *)
Lemma configure_run style_name kw w :
  "self" ∉ kw.*1 → "style" ∉ kw.*1 →
  configure style_name kw w =
  match eval_items kw with
  | Ok vs => (Ok tt, {| theme_manager := theme_manager w;
                        tk := tk w ++ [Configure style_name (dict vs)] |})
  | Raise e => (Raise e, w)
  end.
Proof.
  intros Hself Hstyle. unfold configure, eval_dict, mbind, M_bind, lift, call_style.
  destruct (eval_items kw) as [vs|e] eqn:Hvs; cbn [result_bind]; [|done].
  apply eval_items_keys in Hvs.
  rewrite accepts_configure_dict; [done | by rewrite Hvs..].
Qed.

Lemma map__run style_name kw w :
  "self" ∉ kw.*1 → "style" ∉ kw.*1 →
  map_ style_name kw w =
  match eval_items kw with
  | Ok vs => (Ok tt, {| theme_manager := theme_manager w;
                        tk := tk w ++ [Map style_name (dict vs)] |})
  | Raise e => (Raise e, w)
  end.
Proof.
  intros Hself Hstyle. unfold map_, eval_dict, mbind, M_bind, lift, call_style.
  destruct (eval_items kw) as [vs|e] eqn:Hvs; cbn [result_bind]; [|done].
  apply eval_items_keys in Hvs.
  rewrite accepts_map_dict; [done | by rewrite Hvs..].
Qed.

Lemma bind_configure {A} style_name kw (k : M A) w :
  "self" ∉ kw.*1 → "style" ∉ kw.*1 →
  M_bind _ _ (λ _ : unit, k) (configure style_name kw) w =
  match eval_items kw with
  | Ok vs => k {| theme_manager := theme_manager w;
                  tk := tk w ++ [Configure style_name (dict vs)] |}
  | Raise e => (Raise e, w)
  end.
Proof.
  intros Hself Hstyle. unfold M_bind. rewrite configure_run by done.
  by destruct (eval_items kw).
Qed.

Lemma bind_map_ {A} style_name kw (k : M A) w :
  "self" ∉ kw.*1 → "style" ∉ kw.*1 →
  M_bind _ _ (λ _ : unit, k) (map_ style_name kw) w =
  match eval_items kw with
  | Ok vs => k {| theme_manager := theme_manager w;
                  tk := tk w ++ [Map style_name (dict vs)] |}
  | Raise e => (Raise e, w)
  end.
Proof.
  intros Hself Hstyle. unfold M_bind. rewrite map__run by done.
  by destruct (eval_items kw).
Qed.

Opaque getitem dict.

(** The run of [_configure_theme] goes on to the next lookup. *)
Ltac configure_theme_advance :=
  cbn [eval_items statespec mbind result_bind theme_manager tk];
  repeat (first [ rewrite bind_configure by (simpl; compute_done)
                | rewrite bind_map_ by (simpl; compute_done)
                | rewrite map__run by (simpl; compute_done) ];
          cbn [eval_items statespec mbind result_bind theme_manager tk]).

(** One lookup of [_configure_theme]: the theme has the key and the run
    goes on, or the run ends here. *)
Ltac configure_theme_leaf :=
  cbn [fst snd theme_manager tk]; rewrite <- ?app_assoc; cbn [app];
  eexists; split_and!;
  [ reflexivity
  | repeat constructor
  | unfold used_colors, used_fonts; rewrite !Forall_cons, !Forall_nil;
    split; [ try done; intros _; split_and!; by eauto
           | try done; intros [? ?]; destruct_and!;
             repeat match goal with
                    | Hnone : ?m !! ?k = None, Hsome : is_Some (?m !! ?k) |- _ =>
                        rewrite Hnone in Hsome; by apply is_Some_None in Hsome
                    end ]
  | try done
  | first [ done
          | intros ? [= <-]; eexists; split; [reflexivity|];
            first [ left; split; [unfold used_colors; compute_done | assumption]
                  | right; split; [unfold used_fonts; compute_done | assumption] ] ] ].

Ltac configure_theme_step key :=
  let v := fresh "v" in
  let H := fresh "Hkey" in
  destruct key as [v|?] eqn:H;
  [ apply getitem_Ok in H | apply getitem_Raise in H as [H ->] ];
  configure_theme_advance; [| configure_theme_leaf].

(** The run of [_configure_theme] on a theme the toolkit has not yet,
    lookup by lookup. *)
Lemma _configure_theme_run theme w :
  name theme ∉ theme_names (tk w) →
  ∃ calls,
    (_configure_theme theme w).2 =
      {| theme_manager := theme_manager w;
         tk := tk w ++ ThemeCreate (name theme) "alt" :: ThemeUse (name theme)
                          :: calls |} ∧
    Forall (λ call, is_styling call = true) calls ∧
    ((_configure_theme theme w).1 = Ok tt ↔
     Forall (λ k, is_Some (colors theme !! k)) used_colors ∧
     Forall (λ k, is_Some (fonts theme !! k)) used_fonts) ∧
    ((_configure_theme theme w).1 = Ok tt → length calls = 9%nat) ∧
    (∀ e, (_configure_theme theme w).1 = Raise e →
          ∃ k, e = KeyError k ∧
               (k ∈ used_colors ∧ colors theme !! k = None ∨
                k ∈ used_fonts ∧ fonts theme !! k = None)).
Proof.
  intros Hfresh. destruct w as [tm l]. cbn [tk] in Hfresh.
  unfold _configure_theme. cbv zeta.
  rewrite bind_call_style. cbn [tk theme_manager].
  rewrite (accepts_create _ _ Hfresh (theme_names_alt l)).
  rewrite bind_call_style. cbn [tk theme_manager].
  rewrite accepts_use
    by (rewrite theme_names_create by done; apply list_elem_of_here).
  unfold mbind. configure_theme_advance.
  configure_theme_step (getitem (colors theme) "bg").
  configure_theme_step (getitem (colors theme) "fg").
  configure_theme_step (getitem (fonts theme) "default").
  configure_theme_step (getitem (colors theme) "entry_bg").
  configure_theme_step (getitem (colors theme) "border").
  configure_theme_step (getitem (colors theme) "button_bg").
  configure_theme_step (getitem (colors theme) "primary").
  configure_theme_step (getitem (colors theme) "button_active").
  configure_theme_step (getitem (fonts theme) "heading").
  configure_theme_step (getitem (colors theme) "select_bg").
  configure_theme_step (getitem (colors theme) "select_fg").
  configure_theme_leaf.
Qed.

(** X2. What [_configure_theme] does depends on whether the toolkit has
    a theme of that name.  When it has, [theme_create] raises [TclError]
    and no other call is made.  When it has not, the theme is created
    with parent ["alt"] and put in use before any colour is read: these
    two calls are made even when a lookup raises.  The calls after them
    are [configure] and [map] calls.  In that case [_configure_theme]
    returns exactly when the theme has the nine colours and the two
    fonts it reads, and then has made nine such calls; what it raises
    otherwise is the [KeyError] of a key it reads and the theme lacks.
    No field of the [ThemeManager] is written. *)
Theorem _configure_theme_needs theme w :
  theme_manager (_configure_theme theme w).2 = theme_manager w ∧
  (name theme ∈ theme_names (tk w) →
   _configure_theme theme w =
     (Raise TclError,
      {| theme_manager := theme_manager w;
         tk := tk w ++ [ThemeCreate (name theme) "alt"] |})) ∧
  (name theme ∉ theme_names (tk w) →
   ∃ calls,
     (_configure_theme theme w).2 =
       {| theme_manager := theme_manager w;
          tk := tk w ++ ThemeCreate (name theme) "alt" :: ThemeUse (name theme)
                           :: calls |} ∧
     Forall (λ call, is_styling call = true) calls ∧
     ((_configure_theme theme w).1 = Ok tt ↔
      Forall (λ k, is_Some (colors theme !! k)) used_colors ∧
      Forall (λ k, is_Some (fonts theme !! k)) used_fonts) ∧
     ((_configure_theme theme w).1 = Ok tt → length calls = 9%nat) ∧
     (∀ e, (_configure_theme theme w).1 = Raise e →
           ∃ k, e = KeyError k ∧
                (k ∈ used_colors ∧ colors theme !! k = None ∨
                 k ∈ used_fonts ∧ fonts theme !! k = None))).
Proof.
  split_and!.
  - apply only_tk__configure_theme.
  - apply _configure_theme_refused.
  - apply _configure_theme_run.
Qed.

Lemma _configure_theme_needs_witness :
  (name (without_color "primary" _get_light_theme) ∉ theme_names (tk World_init)) ∧
  (_configure_theme (without_color "primary" _get_light_theme) World_init).1 ≠ Ok tt ∧
  name _get_light_theme ∈ theme_names (tk World_ready) ∧
  (_configure_theme _get_light_theme World_ready).1 = Raise TclError.
Proof.
  assert (name (without_color "primary" _get_light_theme) ∉
          theme_names (tk World_init)) as Hfresh by compute_done.
  assert (name _get_light_theme ∈ theme_names (tk World_ready)) as Hin
    by compute_done.
  destruct (_configure_theme_needs (without_color "primary" _get_light_theme)
              World_init) as (_ & _ & Hrun).
  destruct (Hrun Hfresh) as (calls & _ & _ & Hiff & _).
  destruct (_configure_theme_needs _get_light_theme World_ready)
    as (_ & Hrefused & _).
  split_and!; [exact Hfresh | | exact Hin | by rewrite (Hrefused Hin)].
  intros [Hcolors _]%Hiff.
  apply Forall_forall with (x := "primary") in Hcolors; [|unfold used_colors; compute_done].
  unfold without_color in Hcolors. cbn [colors] in Hcolors.
  rewrite lookup_delete_eq in Hcolors. by apply is_Some_None in Hcolors.
Defined.

Lemma resolve_config_ext t t' style_config :
  (∀ key value, (key, value) ∈ style_config →
                resolve_value t value = resolve_value t' value) →
  ∀ resolved_config,
    resolve_config t style_config resolved_config =
    resolve_config t' style_config resolved_config.
Proof.
  induction style_config as [|[key value] rest IH]; intros Hvalues acc; simpl; [done|].
  rewrite (Hvalues key value) by apply list_elem_of_here.
  destruct (resolve_value t' value); simpl; [|done].
  apply IH. intros key' value' Hin. apply (Hvalues key'). by apply list_elem_of_further.
Qed.

(** X3. [_configure_theme] and the resolution of the styles of the table
    read the theme's name, nine of its colours and its fonts ["default"]
    and ["heading"], and nothing else: two themes that agree on these
    are configured by the same calls and resolve every style alike.  The
    colours ["secondary"], ["success"], ["danger"], ["warning"],
    ["info"], ["text_bg"] and the font ["title"] are never read. *)
Theorem unread_theme_keys t t' :
  name t = name t' →
  (∀ k, k ∈ used_colors → colors t !! k = colors t' !! k) →
  (∀ k, k ∈ used_fonts → fonts t !! k = fonts t' !! k) →
  _configure_theme t = _configure_theme t' ∧
  ∀ entry, entry ∈ styles AppStyles_init →
           resolve_config t entry.2 ∅ = resolve_config t' entry.2 ∅.
Proof.
  intros Hname Hcolors Hfonts.
  assert (∀ k, k ∈ used_colors → getitem (colors t) k = getitem (colors t') k) as Hc.
  { intros k Hk. by apply getitem_ext, Hcolors. }
  assert (∀ k, k ∈ used_fonts → getitem (fonts t) k = getitem (fonts t') k) as Hf.
  { intros k Hk. by apply getitem_ext, Hfonts. }
  split.
  - unfold _configure_theme. cbv zeta. rewrite Hname.
    repeat match goal with
           | |- context [getitem (colors t) ?k] =>
               rewrite (Hc k) by (unfold used_colors; compute_done)
           | |- context [getitem (fonts t) ?k] =>
               rewrite (Hf k) by (unfold used_fonts; compute_done)
           end.
    reflexivity.
  - intros entry Hentry. apply resolve_config_ext. intros key value Hin.
    simpl in Hentry. enumerate Hentry; subst entry; simpl in Hin; enumerate Hin;
      injection Hin as -> ->; simpl;
      solve [ reflexivity
            | apply Hc; unfold used_colors; compute_done
            | apply Hf; unfold used_fonts; compute_done ].
Qed.

Lemma unread_theme_keys_witness :
  _configure_theme _get_light_theme =
  _configure_theme (without_color "text_bg" _get_light_theme).
Proof.
  apply (unread_theme_keys _get_light_theme (without_color "text_bg" _get_light_theme)).
  - reflexivity.
  - intros k Hk. unfold without_color. cbn [colors].
    rewrite lookup_delete_ne; [done|].
    intros <-. revert Hk. unfold used_colors. compute_done.
  - reflexivity.
Defined.

Transparent getitem dict.

(** ** References, well formed or not *)

Lemma startswith_app p s :
  PyStr.startswith p s = true → ∃ rest, s = p +:+ rest.
Proof.
  unfold PyStr.startswith. revert s.
  induction p as [|a p IH]; intros s; simpl.
  - exists s. by destruct s.
  - destruct s as [|b s]; simpl; [done|].
    destruct (ascii_dec a b) as [<- | _]; [|done].
    intros [rest ->]%IH. by exists rest.
Qed.

Lemma split_first sep k rest :
  has_char sep k = false →
  PyStr.split sep (k +:+ String sep rest) = k :: PyStr.split sep rest.
Proof.
  induction k as [|a k IH]; simpl.
  - intros _. by rewrite Ascii.eqb_refl.
  - intros [-> Hk]%orb_false_elim. by rewrite IH.
Qed.

Lemma split_not_nil sep s : ∃ piece pieces, PyStr.split sep s = piece :: pieces.
Proof.
  destruct s as [|a s]; simpl; [by eauto|].
  destruct (Ascii.eqb a sep); [by eauto|].
  destruct (PyStr.split sep s); by eauto.
Qed.

(** After a prefix that ends in a dot, [split('.')[1]] exists. *)
Lemma index_after_dot p rest :
  has_char "." p = false →
  ∃ k, PyStr.index (PyStr.split "." (p +:+ String "." rest)) 1 = Ok k ∧
       PyStr.split "." rest !! 0%nat = Some k.
Proof.
  intros Hp. rewrite split_first by done.
  destruct (split_not_nil "." rest) as (k & pieces & ->). by exists k.
Qed.

Lemma resolve_value_Raise t value e :
  resolve_value t value = Raise e →
  ∃ s k,
    value = PStr s ∧ e = KeyError k ∧
    PyStr.split "." s !! 1%nat = Some k ∧
    (PyStr.startswith "colors." s = true ∧ colors t !! k = None ∨
     PyStr.startswith "colors." s = false ∧
     PyStr.startswith "fonts." s = true ∧ fonts t !! k = None).
Proof.
  destruct value as [s| | |]; simpl; try done.
  destruct (PyStr.startswith "colors." s) eqn:Hc.
  - destruct (startswith_app _ _ Hc) as [rest ->].
    destruct (index_after_dot "colors" rest eq_refl) as (k & Hk & Hpiece).
    change ("colors." +:+ rest) with ("colors" +:+ String "." rest).
    rewrite Hk. simpl. intros [Hnone ->]%getitem_Raise.
    exists ("colors" +:+ String "." rest), k. split_and!; try done.
    left. split; [exact Hc | done].
  - destruct (PyStr.startswith "fonts." s) eqn:Hf; [|done].
    destruct (startswith_app _ _ Hf) as [rest ->].
    destruct (index_after_dot "fonts" rest eq_refl) as (k & Hk & Hpiece).
    change ("fonts." +:+ rest) with ("fonts" +:+ String "." rest).
    rewrite Hk. simpl. intros [Hnone ->]%getitem_Raise.
    exists ("fonts" +:+ String "." rest), k. split_and!; try done.
    right. split_and!; [exact Hc | exact Hf | done].
Qed.

(** X4. Resolving a value raises nothing but [KeyError]: a value that
    starts with ["colors."] or ["fonts."] always has a second piece, so
    the index into the split never fails.  When it raises, the value is
    a reference, the key named is the piece between its first dot and
    its second, and the table asked lacks that key. *)
Theorem resolve_value_raises t value e :
  resolve_value t value = Raise e →
  ∃ s k,
    value = PStr s ∧ e = KeyError k ∧
    PyStr.split "." s !! 1%nat = Some k ∧
    (PyStr.startswith "colors." s = true ∧ colors t !! k = None ∨
     PyStr.startswith "colors." s = false ∧
     PyStr.startswith "fonts." s = true ∧ fonts t !! k = None).
Proof. apply resolve_value_Raise. Qed.

Lemma resolve_value_raises_witness :
  resolve_value (without_color "primary" _get_light_theme) (PStr "colors.primary") =
    Raise (KeyError "primary") ∧
  ∃ s k, PStr "colors.primary" = PStr s ∧ KeyError "primary" = KeyError k ∧
         PyStr.split "." s !! 1%nat = Some k ∧
         (PyStr.startswith "colors." s = true ∧
          colors (without_color "primary" _get_light_theme) !! k = None ∨
          PyStr.startswith "colors." s = false ∧
          PyStr.startswith "fonts." s = true ∧
          fonts (without_color "primary" _get_light_theme) !! k = None).
Proof.
  assert (resolve_value (without_color "primary" _get_light_theme)
            (PStr "colors.primary") = Raise (KeyError "primary")) as Hres
    by reflexivity.
  split; [exact Hres|].
  exact (resolve_value_raises _ _ _ Hres).
Defined.

(** X5. A reference is cut at its second dot: for a key [k] without a
    dot, ["colors.<k>"] and ["colors.<k>.<anything>"] both resolve to
    [colors[<k>]] (and raise [KeyError k] when the theme lacks [k]); the
    same holds for ["fonts."]. *)
Theorem reference_cut_at_second_dot t k rest :
  has_char "." k = false →
  resolve_value t (PStr ("colors." +:+ k)) = getitem (colors t) k ∧
  resolve_value t (PStr ("colors." +:+ k +:+ "." +:+ rest)) = getitem (colors t) k ∧
  resolve_value t (PStr ("fonts." +:+ k)) = getitem (fonts t) k ∧
  resolve_value t (PStr ("fonts." +:+ k +:+ "." +:+ rest)) = getitem (fonts t) k.
Proof.
  intros Hk. split_and!.
  - by apply resolve_value_colors.
  - simpl. change ("" +:+ k +:+ "." +:+ rest) with (k +:+ String "." rest).
    rewrite split_first by done. by destruct k.
  - by apply resolve_value_fonts.
  - simpl. change ("" +:+ k +:+ "." +:+ rest) with (k +:+ String "." rest).
    rewrite split_first by done. by destruct k.
Qed.

Lemma reference_cut_at_second_dot_witness :
  has_char "." "bg" = false ∧
  resolve_value _get_dark_theme (PStr ("colors." +:+ "bg" +:+ "." +:+ "hover")) =
    getitem (colors _get_dark_theme) "bg".
Proof.
  split; [reflexivity|].
  by destruct (reference_cut_at_second_dot _get_dark_theme "bg" "hover" eq_refl)
    as (_ & Hcut & _).
Defined.

(** ** [setup_styles] on any table *)

Lemma configure_style_step t style_name style_config table w :
  for_each ((style_name, style_config) :: table) (configure_style t) w =
  match resolve_config t style_config ∅ with
  | Ok resolved =>
      match accepts (theme_names (tk w)) (Configure style_name resolved) with
      | Ok _ =>
          for_each table (configure_style t)
            {| theme_manager := theme_manager w;
               tk := tk w ++ [Configure style_name resolved] |}
      | Raise e =>
          (Raise e, {| theme_manager := theme_manager w;
                       tk := tk w ++ [Configure style_name resolved] |})
      end
  | Raise e => (Raise e, w)
  end.
Proof.
  cbn [for_each]. unfold configure_style, mbind, M_bind, lift, call_style.
  destruct (resolve_config t style_config ∅); [|done].
  by destruct (accepts _ _).
Qed.

(** Whatever the table, the calls of the loop are [configure] calls,
    one per style in the order of the table, up to where it stops. *)
Lemma configure_style_calls t table : ∀ w, ∃ rs,
  (for_each table (configure_style t) w).2 =
    {| theme_manager := theme_manager w;
       tk := tk w ++ zip_with Configure table.*1 rs |}.
Proof.
  induction table as [|[style_name style_config] table IH]; intros w.
  - exists []. destruct w. simpl. by rewrite app_nil_r.
  - rewrite configure_style_step.
    destruct (resolve_config t style_config ∅) as [resolved|e].
    + destruct (accepts _ _).
      * destruct (IH {| theme_manager := theme_manager w;
                        tk := tk w ++ [Configure style_name resolved] |})
          as (rs & ->).
        exists (resolved :: rs). simpl. by rewrite <- app_assoc.
      * exists [resolved]. by destruct table.
    + exists []. destruct w. simpl. by rewrite app_nil_r.
Qed.

Lemma configure_style_loop t table :
  Forall (λ entry, plain_properties entry.2) table →
  ∀ w, ∃ rs,
    Forall2 (λ entry r, resolve_config t entry.2 ∅ = Ok r)
            (take (length rs) table) rs ∧
    (for_each table (configure_style t) w).2 =
      {| theme_manager := theme_manager w;
         tk := tk w ++ zip_with Configure table.*1 rs |} ∧
    match (for_each table (configure_style t) w).1 with
    | Ok _ => length rs = length table
    | Raise e => ∃ entry, table !! length rs = Some entry ∧
                          resolve_config t entry.2 ∅ = Raise e
    end.
Proof.
  induction table as [|[style_name style_config] table IH]; intros Hplain w.
  - exists []. split_and!; [constructor | | done].
    destruct w. simpl. by rewrite app_nil_r.
  - apply Forall_cons in Hplain as [Hprops Hplain]. cbn [snd] in Hprops.
    rewrite configure_style_step.
    destruct (resolve_config t style_config ∅) as [resolved|e] eqn:Hres.
    + rewrite (accepts_resolved t _ _ _ _ Hprops Hres).
      destruct (IH Hplain {| theme_manager := theme_manager w;
                             tk := tk w ++ [Configure style_name resolved] |})
        as (rs & Hrs & Hworld & Hret).
      exists (resolved :: rs). split_and!.
      * by constructor.
      * rewrite Hworld. simpl. by rewrite <- app_assoc.
      * destruct (for_each table _ _).1; simpl; [by f_equal | done].
    + exists []. split_and!; [constructor | | by exists (style_name, style_config)].
      destruct w. simpl. by rewrite app_nil_r.
Qed.

Lemma resolve_config_raises t style_config : ∀ resolved_config e,
  resolve_config t style_config resolved_config = Raise e →
  ∃ key value, (key, value) ∈ style_config ∧ resolve_value t value = Raise e.
Proof.
  induction style_config as [|[key value] rest IH]; intros acc e; simpl; [done|].
  destruct (resolve_value t value) as [v|e'] eqn:Hv; simpl.
  - intros (key' & value' & Hin & Hraise)%IH.
    exists key', value'. split; [by apply list_elem_of_further | done].
  - intros [= ->]. exists key, value. split; [apply list_elem_of_here | done].
Qed.

(** X6. For a table none of whose properties is named [self], [style]
    or [query_opt], [setup_styles] configures the styles in the order of
    the table and stops at the first one that does not resolve: the
    styles before it have been configured with their resolved
    dictionaries, that style and the ones after it have not, and the
    error raised is the [KeyError] of that style.  When it returns,
    every style has been configured.  No field of the [ThemeManager] is
    written either way. *)
Theorem setup_styles_stops_at_first_failure self t w :
  Forall (λ entry, plain_properties entry.2) (styles self) →
  get_current_theme w = (Ok t, w) →
  ∃ rs,
    Forall2 (λ entry r, resolve_config t entry.2 ∅ = Ok r)
            (take (length rs) (styles self)) rs ∧
    (setup_styles self w).2 =
      {| theme_manager := theme_manager w;
         tk := tk w ++ zip_with Configure (styles self).*1 rs |} ∧
    match (setup_styles self w).1 with
    | Ok _ => length rs = length (styles self)
    | Raise e => ∃ entry k, styles self !! length rs = Some entry ∧
                            resolve_config t entry.2 ∅ = Raise e ∧
                            e = KeyError k
    end.
Proof.
  intros Hplain Hactive.
  assert (setup_styles self w = for_each (styles self) (configure_style t) w) as ->.
  { unfold setup_styles. unfold mbind at 1, M_bind at 1. by rewrite Hactive. }
  destruct (configure_style_loop t (styles self) Hplain w)
    as (rs & Hrs & Hworld & Hret).
  exists rs. split_and!; [done..|].
  destruct (for_each (styles self) (configure_style t) w).1 as [|e]; [done|].
  destruct Hret as (entry & Hentry & Hraise).
  destruct (resolve_config_raises _ _ _ _ Hraise) as (key & value & _ & Hvalue).
  destruct (resolve_value_Raise _ _ _ Hvalue) as (s & k & _ & -> & _).
  by exists entry, k.
Qed.

Example setup_styles_no_primary :
  setup_styles AppStyles_init World_no_primary =
  (Raise (KeyError "primary"),
   {| theme_manager := theme_manager World_no_primary;
      tk := [Configure "Main.TFrame" (dict [("background", PStr "#f8f9fa")])] |}).
Proof. reflexivity. Qed.

(** A property named [style] clashes with the parameter of
    [Style.configure]: the call raises [TypeError]. *)
Example setup_styles_keyword_clash :
  setup_styles {| styles := [("Main.TFrame", [("style", PStr "flat")])] |} World_init =
  (Raise TypeError,
   {| theme_manager := theme_manager World_init;
      tk := [Configure "Main.TFrame" (dict [("style", PStr "flat")])] |}).
Proof. reflexivity. Qed.

Lemma setup_styles_stops_at_first_failure_witness :
  Forall (λ entry, plain_properties entry.2) (styles AppStyles_init) ∧
  get_current_theme World_no_primary =
    (Ok (without_color "primary" _get_light_theme), World_no_primary) ∧
  ∃ rs,
    Forall2 (λ entry r,
               resolve_config (without_color "primary" _get_light_theme) entry.2 ∅ =
                 Ok r)
            (take (length rs) (styles AppStyles_init)) rs ∧
    (setup_styles AppStyles_init World_no_primary).2 =
      {| theme_manager := theme_manager World_no_primary;
         tk := tk World_no_primary ++
               zip_with Configure (styles AppStyles_init).*1 rs |} ∧
    match (setup_styles AppStyles_init World_no_primary).1 with
    | Ok _ => length rs = length (styles AppStyles_init)
    | Raise e =>
        ∃ entry k, styles AppStyles_init !! length rs = Some entry ∧
                   resolve_config (without_color "primary" _get_light_theme)
                     entry.2 ∅ = Raise e ∧
                   e = KeyError k
    end.
Proof.
  split; [apply styles_plain_properties|]. split; [reflexivity|].
  apply (setup_styles_stops_at_first_failure AppStyles_init
           (without_color "primary" _get_light_theme) World_no_primary).
  - apply styles_plain_properties.
  - reflexivity.
Defined.

(** ** The toolkit's theme and [current_theme] *)

Lemma used_zip_with_Configure names rs : used (zip_with Configure names rs) = [].
Proof.
  revert rs. induction names as [|n names IH]; intros [|r rs]; by simpl.
Qed.

Lemma styling_zip_with_Configure names rs :
  Forall (λ call, is_styling call = true) (zip_with Configure names rs).
Proof.
  revert rs. induction names as [|n names IH]; intros [|r rs]; simpl;
    by constructor.
Qed.

Lemma setup_styles_only_configures self w :
  ∃ rs, (setup_styles self w).2 =
        {| theme_manager := theme_manager w;
           tk := tk w ++ zip_with Configure (styles self).*1 rs |}.
Proof.
  destruct (get_current_theme w) as [[t|e] w'] eqn:Hget.
  - pose proof (pure_get_current_theme w) as Hpure.
    rewrite Hget in Hpure. simpl in Hpure. subst w'.
    assert (setup_styles self w = for_each (styles self) (configure_style t) w) as ->.
    { unfold setup_styles. unfold mbind at 1, M_bind at 1. by rewrite Hget. }
    apply configure_style_calls.
  - pose proof (pure_get_current_theme w) as Hpure.
    rewrite Hget in Hpure. simpl in Hpure. subst w'.
    exists []. unfold setup_styles. unfold mbind at 1, M_bind at 1. rewrite Hget.
    destruct w, (styles self).*1; simpl; by rewrite app_nil_r.
Qed.

(** X7. The last [theme_use] call [toggle_theme] leaves behind names the
    theme [current_theme] names, in any world.  [get_current_theme],
    [get_style] and [setup_styles] make no [theme_use] call, so they
    keep the theme last asked for, and with it the agreement, as they
    found it. *)
Theorem toolkit_theme_follows_toggle self style_name w :
  in_step (toggle_theme w).2 ∧
  theme_in_use (tk (get_current_theme w).2) = theme_in_use (tk w) ∧
  theme_in_use (tk (get_style style_name w).2) = theme_in_use (tk w) ∧
  theme_in_use (tk (setup_styles self w).2) = theme_in_use (tk w) ∧
  (in_step w →
   in_step (get_current_theme w).2 ∧ in_step (get_style style_name w).2 ∧
   in_step (setup_styles self w).2).
Proof.
  assert (theme_in_use (tk (setup_styles self w).2) = theme_in_use (tk w)) as Hstyles.
  { destruct (setup_styles_only_configures self w) as [rs ->]. simpl.
    unfold theme_in_use. by rewrite used_app, used_zip_with_Configure, app_nil_r. }
  repeat apply conj.
  - unfold in_step. rewrite toggle_theme_world. simpl.
    by apply theme_in_use_app.
  - by rewrite pure_get_current_theme.
  - by rewrite pure_get_style.
  - exact Hstyles.
  - unfold in_step. intros Hw.
    rewrite pure_get_current_theme, pure_get_style, Hstyles, only_tk_setup_styles.
    done.
Qed.

Lemma toolkit_theme_follows_toggle_witness :
  in_step (toggle_theme World_init).2 ∧
  in_step (setup_styles AppStyles_init (toggle_theme World_init).2).2.
Proof.
  destruct (toolkit_theme_follows_toggle AppStyles_init "Action.TButton" World_init)
    as (Htoggle & _).
  split; [exact Htoggle|].
  by destruct (toolkit_theme_follows_toggle AppStyles_init "Action.TButton"
                 (toggle_theme World_init).2) as (_ & _ & _ & _ & Hkeep);
    apply Hkeep.
Defined.

(** ** [toggle_theme] in any world *)

(** X8. Whatever [current_theme] holds, one call of [toggle_theme]
    leaves it on ["light"] or ["dark"]: ["light"] becomes ["dark"] and
    every other value becomes ["light"].  From then on two calls restore
    the name, so three calls do what one does. *)
Theorem toggle_theme_from_any_name w :
  (current_theme (theme_manager w) = "light" →
   current_theme (theme_manager (toggle_theme w).2) = "dark") ∧
  (current_theme (theme_manager w) ≠ "light" →
   current_theme (theme_manager (toggle_theme w).2) = "light") ∧
  (current_theme (theme_manager (toggle_theme w).2) = "light" ∨
   current_theme (theme_manager (toggle_theme w).2) = "dark") ∧
  current_theme
    (theme_manager (toggle_theme (toggle_theme (toggle_theme w).2).2).2) =
  current_theme (theme_manager (toggle_theme w).2).
Proof.
  rewrite !toggle_theme_world. simpl. unfold other_theme.
  destruct (String.eqb_spec (current_theme (theme_manager w)) "light") as [-> | Hne];
    simpl; split_and!; try done; auto.
Qed.

Lemma toggle_theme_from_any_name_witness :
  current_theme (theme_manager
    (toggle_theme {| theme_manager := {| current_theme := "blue";
                                         themes := themes ThemeManager_init;
                                         style := ttk_Style |};
                     tk := [] |}).2) = "light".
Proof.
  refine (proj1 (proj2 (toggle_theme_from_any_name _)) _).
  cbn [theme_manager current_theme]. intros [=].
Defined.

Lemma assoc_Raise {V} (d : list (string * V)) k e :
  assoc d k = Raise e → e = KeyError k ∧ k ∉ d.*1.
Proof.
  induction d as [|[k' v] d IH]; simpl.
  - intros [= <-]. split; [done | apply not_elem_of_nil].
  - destruct (String.eqb_spec k' k) as [-> | Hne]; [done|].
    intros [-> Hnotin]%IH. split; [done|].
    apply not_elem_of_cons. by split.
Qed.

Lemma assoc_missing {V} (d : list (string * V)) k :
  k ∉ d.*1 → assoc d k = Raise (KeyError k).
Proof.
  induction d as [|[k' v] d IH]; simpl; [done|].
  intros [Hne Hnotin]%not_elem_of_cons.
  destruct (String.eqb_spec k' k) as [-> | _]; [done | by apply IH].
Qed.

(** X9. A failure does not undo what [toggle_theme] has done: in any
    world [current_theme] is written and [theme_use] is called before
    anything can fail, and both stay.  [toggle_theme] raises in two
    cases only: [TclError] when the toolkit has no theme of the new
    name, and, when it has one, [KeyError] of the new name when [themes]
    has no entry for it.  After a switch to a name without an entry,
    [get_current_theme] raises that [KeyError] as well, and writes
    nothing. *)
Theorem toggle_theme_raises_after_switching w :
  let new := other_theme (current_theme (theme_manager w)) in
  let w' := (toggle_theme w).2 in
  current_theme (theme_manager w') = new ∧
  tk w' = tk w ++ [ThemeUse new] ∧
  (new ∉ theme_names (tk w) → (toggle_theme w).1 = Raise TclError) ∧
  (new ∈ theme_names (tk w) → new ∉ (themes (theme_manager w)).*1 →
   (toggle_theme w).1 = Raise (KeyError new)) ∧
  (new ∉ (themes (theme_manager w)).*1 →
   get_current_theme w' = (Raise (KeyError new), w')) ∧
  (∀ e, (toggle_theme w).1 = Raise e →
        e = TclError ∧ new ∉ theme_names (tk w) ∨
        e = KeyError new ∧ new ∈ theme_names (tk w) ∧
        new ∉ (themes (theme_manager w)).*1).
Proof.
  cbv zeta. rewrite toggle_theme_world, toggle_theme_result.
  cbn [theme_manager tk current_theme]. split_and!; try done.
  - intros Hnotin. unfold accepts. by rewrite bool_decide_eq_false_2.
  - intros Hin Hmissing. rewrite accepts_use by done.
    by apply assoc_missing.
  - intros Hmissing.
    unfold get_current_theme, get_self, lift, mbind, M_bind.
    cbn [fst snd theme_manager current_theme themes].
    by rewrite assoc_missing.
  - intros e.
    destruct (decide (other_theme (current_theme (theme_manager w)) ∈
                      theme_names (tk w))) as [Hin | Hnotin].
    + rewrite accepts_use by done. intros [-> Hmissing]%assoc_Raise. by right.
    + unfold accepts. rewrite bool_decide_eq_false_2 by done.
      intros [= <-]. by left.
Qed.

Lemma toggle_theme_raises_after_switching_witness :
  "dark" ∈ theme_names (tk World_only_light) ∧
  ("dark" ∉ (themes (theme_manager World_only_light)).*1) ∧
  (toggle_theme World_only_light).1 = Raise (KeyError "dark") ∧
  current_theme (theme_manager (toggle_theme World_only_light).2) = "dark" ∧
  get_current_theme (toggle_theme World_only_light).2 =
    (Raise (KeyError "dark"), (toggle_theme World_only_light).2).
Proof.
  assert ("dark" ∈ theme_names (tk World_only_light)) as Hin by compute_done.
  assert ("dark" ∉ (themes (theme_manager World_only_light)).*1) as Hmissing
    by compute_done.
  destruct (toggle_theme_raises_after_switching World_only_light)
    as (Hname & _ & _ & Hraise & Hget & _).
  split_and!; [exact Hin | exact Hmissing | exact (Hraise Hin Hmissing)
              | exact Hname | exact (Hget Hmissing)].
Defined.

(** ** Running [setup_styles] again *)

Lemma run_again {A} (m : M A) w :
  log_oblivious m → only_tk m →
  theme_names (tk (m w).2) = theme_names (tk w) →
  (m (m w).2).1 = (m w).1 ∧
  new_calls (m w).2 (m (m w).2).2 = new_calls w (m w).2.
Proof.
  intros Hobl Hframe Hnames. destruct w as [tm l].
  pose proof (Hframe {| theme_manager := tm; tk := l |}) as Htm.
  destruct (Hobl tm l l eq_refl) as (r & tm' & calls & Hrun & _).
  rewrite Hrun in Hnames, Htm |- *. cbn [fst snd theme_manager tk] in *. subst tm'.
  destruct (Hobl tm (l ++ calls) l Hnames) as (r' & tm' & calls' & -> & Hrun').
  rewrite Hrun in Hrun'. injection Hrun' as <- <- <-%app_inv_head.
  unfold new_calls. cbn [fst snd tk]. by rewrite !drop_app_length.
Qed.

(** X10. [setup_styles] keeps no track of having run.  In any world and
    for any table, it leaves the toolkit's themes as they are, and
    running it again ends the same way and makes the same calls
    again. *)
Theorem setup_styles_again_repeats_calls self w :
  theme_names (tk (setup_styles self w).2) = theme_names (tk w) ∧
  (setup_styles self (setup_styles self w).2).1 = (setup_styles self w).1 ∧
  new_calls (setup_styles self w).2 (setup_styles self (setup_styles self w).2).2 =
    new_calls w (setup_styles self w).2.
Proof.
  assert (theme_names (tk (setup_styles self w).2) = theme_names (tk w)) as Hnames.
  { destruct (setup_styles_only_configures self w) as [rs ->]. cbn [tk].
    apply theme_names_styling, styling_zip_with_Configure. }
  split; [exact Hnames|].
  apply run_again;
    [apply log_oblivious_setup_styles | apply only_tk_setup_styles | exact Hnames].
Qed.

(** [setup_themes] is not like that. *)
Example setup_themes_again_raises :
  (setup_themes World_init).1 = Ok tt ∧
  (setup_themes (setup_themes World_init).2).1 = Raise TclError.
Proof. split; reflexivity. Qed.

(** ** [setup_themes] on any table of themes *)

Lemma for_each_cons {A} (x : A) xs body w :
  for_each (x :: xs) body w =
  match body x w with
  | (Ok _, w') => for_each xs body w'
  | (Raise e, w') => (Raise e, w')
  end.
Proof. done. Qed.

(** The loop of [setup_themes], theme by theme: [n] themes go through,
    and the loop ends there or the next theme stops it. *)
Lemma _configure_theme_loop ts : ∀ w, ∃ n calls,
  (for_each ts _configure_theme w).2 =
    {| theme_manager := theme_manager w; tk := tk w ++ calls |} ∧
  Forall has_used_keys (take n ts) ∧
  NoDup (name <$> take n ts) ∧
  Forall (λ t, name t ∉ theme_names (tk w)) (take n ts) ∧
  match (for_each ts _configure_theme w).1 with
  | Ok _ =>
      n = length ts ∧
      created calls = (λ t, (name t, "alt")) <$> ts ∧
      used calls = name <$> ts ∧
      theme_names (tk w ++ calls) = reverse (name <$> ts) ++ theme_names (tk w)
  | Raise e =>
      ∃ t, ts !! n = Some t ∧
        created calls = (λ t, (name t, "alt")) <$> take (S n) ts ∧
        (e = TclError ∧
         (name t ∈ theme_names (tk w) ∨ name t ∈ name <$> take n ts) ∧
         used calls = name <$> take n ts ∧
         theme_names (tk w ++ calls) =
           reverse (name <$> take n ts) ++ theme_names (tk w)
         ∨
         (∃ k, e = KeyError k ∧
               (k ∈ used_colors ∧ colors t !! k = None ∨
                k ∈ used_fonts ∧ fonts t !! k = None)) ∧
         ¬ has_used_keys t ∧
         (name t ∉ theme_names (tk w)) ∧ (name t ∉ name <$> take n ts) ∧
         used calls = name <$> take (S n) ts ∧
         theme_names (tk w ++ calls) =
           reverse (name <$> take (S n) ts) ++ theme_names (tk w))
  end.
Proof.
  induction ts as [|t ts IH]; intros w.
  - exists 0%nat, []. destruct w as [tm l]. cbn. rewrite !app_nil_r.
    split_and!; try done; constructor.
  - rewrite for_each_cons.
    destruct (decide (name t ∈ theme_names (tk w))) as [Hin | Hfresh].
    + rewrite (_configure_theme_refused t w Hin).
      exists 0%nat, [ThemeCreate (name t) "alt"]. cbn [fst snd take].
      split_and!; [done | constructor | constructor | constructor |].
      exists t. split_and!; [done | done |].
      left. split_and!; [done | by left | done |].
      by apply theme_names_create_again.
    + destruct (_configure_theme_run t w Hfresh)
        as (calls & Hworld & Hstyling & Hiff & _ & Hraise).
      destruct (styling_not_switching calls Hstyling) as [Hcreated Hused].
      pose proof (theme_names_created (tk w) (name t) calls Hfresh Hstyling)
        as Hnames.
      destruct (_configure_theme t w) as [[[]|e] w1] eqn:Hrun;
        cbn [fst snd] in Hworld, Hiff, Hraise; subst w1.
      * destruct (IH {| theme_manager := theme_manager w;
                        tk := tk w ++ ThemeCreate (name t) "alt" :: ThemeUse (name t)
                                         :: calls |})
          as (n & calls' & Hworld' & Hkeys & Hnodup & Hfreshs & Hret).
        cbn [tk theme_manager] in Hworld', Hfreshs, Hret.
        rewrite Hnames in Hfreshs, Hret.
        assert (Forall (λ t', name t' ∉ theme_names (tk w)) (take n ts) ∧
                name t ∉ name <$> take n ts) as [Hfreshs' Hnew].
        { split.
          - eapply Forall_impl; [exact Hfreshs|]. intros t' Ht' Hin.
            apply Ht'. by apply list_elem_of_further.
          - intros (t' & Heq & Hin)%list_elem_of_fmap.
            apply (proj1 (Forall_forall _ _) Hfreshs t' Hin).
            rewrite <- Heq. apply list_elem_of_here. }
        exists (S n),
          (ThemeCreate (name t) "alt" :: ThemeUse (name t) :: calls ++ calls').
        assert (tk w ++ ThemeCreate (name t) "alt" :: ThemeUse (name t)
                          :: calls ++ calls' =
                (tk w ++ ThemeCreate (name t) "alt" :: ThemeUse (name t) :: calls)
                  ++ calls') as Hassoc.
        { by rewrite <- app_assoc. }
        assert (created (ThemeCreate (name t) "alt" :: ThemeUse (name t)
                           :: calls ++ calls') =
                (name t, "alt") :: created calls') as Hcreated'.
        { change (ThemeCreate (name t) "alt" :: ThemeUse (name t) :: calls ++ calls')
            with ([ThemeCreate (name t) "alt"; ThemeUse (name t)] ++ calls ++ calls').
          by rewrite !created_app, Hcreated. }
        assert (used (ThemeCreate (name t) "alt" :: ThemeUse (name t)
                        :: calls ++ calls') =
                name t :: used calls') as Hused'.
        { change (ThemeCreate (name t) "alt" :: ThemeUse (name t) :: calls ++ calls')
            with ([ThemeCreate (name t) "alt"; ThemeUse (name t)] ++ calls ++ calls').
          by rewrite !used_app, Hused. }
        rewrite Hworld', Hassoc, Hcreated', Hused'. cbn [take fmap list_fmap].
        split_and!.
        -- done.
        -- constructor; [by apply Hiff | done].
        -- by constructor.
        -- by constructor.
        -- revert Hret.
           destruct (for_each ts _configure_theme _).1 as [|e]; cbn [fst].
           ++ intros (-> & -> & -> & ->). split_and!; [done..|].
              change (list_fmap Theme string name ts) with (name <$> ts).
              by rewrite reverse_cons, <- app_assoc.
           ++ intros (t' & Ht' & -> & Hcase). exists t'.
              split_and!; [done | done |].
              change (list_fmap Theme string name (take n ts))
                with (name <$> take n ts).
              destruct Hcase
                as [(-> & Hclash & -> & ->)
                   | (Hkey & Hlacks & Hfresh' & Hnew' & -> & ->)].
              ** left. split_and!; [done | | done |].
                 { destruct Hclash as [[Heq | Hin]%elem_of_cons | Hin].
                   - right. rewrite Heq. apply list_elem_of_here.
                   - by left.
                   - right. by apply list_elem_of_further. }
                 by rewrite reverse_cons, <- app_assoc.
              ** right. split_and!; [done | done | | | done |].
                 { intros Hin. apply Hfresh'. by apply list_elem_of_further. }
                 { intros [Heq | Hin]%elem_of_cons; [|done].
                   apply Hfresh'. rewrite Heq. apply list_elem_of_here. }
                 cbn [take fmap list_fmap].
                 change (list_fmap Theme string name (take n ts))
                   with (name <$> take n ts).
                 by rewrite !reverse_cons, <- !app_assoc.
      * exists 0%nat, (ThemeCreate (name t) "alt" :: ThemeUse (name t) :: calls).
        cbn [fst snd take].
        split_and!; [done | constructor | constructor | constructor |].
        exists t. split_and!; [done | |].
        { change (ThemeCreate (name t) "alt" :: ThemeUse (name t) :: calls)
            with ([ThemeCreate (name t) "alt"; ThemeUse (name t)] ++ calls).
          by rewrite created_app, Hcreated. }
        right. split_and!.
        -- by apply Hraise.
        -- intros Hhas. by apply Hiff in Hhas.
        -- done.
        -- apply not_elem_of_nil.
        -- change (ThemeCreate (name t) "alt" :: ThemeUse (name t) :: calls)
             with ([ThemeCreate (name t) "alt"; ThemeUse (name t)] ++ calls).
           by rewrite used_app, Hused.
        -- by rewrite Hnames.
Qed.

(** X11. In any world [setup_themes] goes through [themes] in order and
    stops at the first theme it cannot configure.  Each theme before
    that one has the colours and fonts [_configure_theme] reads and a
    name the toolkit had not, neither from the start nor from an earlier
    theme of the table; it has been created with parent ["alt"] and put
    in use.  The theme that stops the run either bears a name the
    toolkit has by then, and [theme_create] raises [TclError], or lacks
    a key, and the lookup raises [KeyError] after the theme was created
    and put in use.  The themes after it are not reached.  When
    [setup_themes] returns, every theme has been created and put in use,
    and the toolkit has them all.  No field of the [ThemeManager] is
    written. *)
Theorem setup_themes_stops_at_first_failure w :
  ∃ n calls,
    (setup_themes w).2 =
      {| theme_manager := theme_manager w; tk := tk w ++ calls |} ∧
    Forall has_used_keys (take n (themes (theme_manager w)).*2) ∧
    NoDup (name <$> take n (themes (theme_manager w)).*2) ∧
    Forall (λ t, name t ∉ theme_names (tk w))
           (take n (themes (theme_manager w)).*2) ∧
    match (setup_themes w).1 with
    | Ok _ =>
        n = length (themes (theme_manager w)) ∧
        created calls = (λ t, (name t, "alt")) <$> (themes (theme_manager w)).*2 ∧
        used calls = name <$> (themes (theme_manager w)).*2 ∧
        theme_names (tk w ++ calls) =
          reverse (name <$> (themes (theme_manager w)).*2) ++ theme_names (tk w)
    | Raise e =>
        ∃ t, (themes (theme_manager w)).*2 !! n = Some t ∧
          created calls =
            (λ t, (name t, "alt")) <$> take (S n) (themes (theme_manager w)).*2 ∧
          (e = TclError ∧
           (name t ∈ theme_names (tk w) ∨
            name t ∈ name <$> take n (themes (theme_manager w)).*2) ∧
           used calls = name <$> take n (themes (theme_manager w)).*2 ∧
           theme_names (tk w ++ calls) =
             reverse (name <$> take n (themes (theme_manager w)).*2) ++
             theme_names (tk w)
           ∨
           (∃ k, e = KeyError k ∧
                 (k ∈ used_colors ∧ colors t !! k = None ∨
                  k ∈ used_fonts ∧ fonts t !! k = None)) ∧
           ¬ has_used_keys t ∧
           (name t ∉ theme_names (tk w)) ∧
           (name t ∉ name <$> take n (themes (theme_manager w)).*2) ∧
           used calls = name <$> take (S n) (themes (theme_manager w)).*2 ∧
           theme_names (tk w ++ calls) =
             reverse (name <$> take (S n) (themes (theme_manager w)).*2) ++
             theme_names (tk w))
    end.
Proof.
  destruct (_configure_theme_loop (themes (theme_manager w)).*2 w)
    as (n & calls & Hworld & Hkeys & Hnodup & Hfresh & Hret).
  exists n, calls.
  change (setup_themes w)
    with (for_each (themes (theme_manager w)).*2 _configure_theme w).
  split_and!; [done..|].
  revert Hret. destruct (for_each _ _ w).1; intros Hret; [|done].
  destruct Hret as (-> & Hret). split; [|done]. by rewrite length_fmap.
Qed.

Example setup_themes_no_primary :
  (setup_themes World_no_primary).1 = Raise (KeyError "primary") ∧
  created (tk (setup_themes World_no_primary).2) = [("light", "alt")] ∧
  theme_in_use (tk (setup_themes World_no_primary).2) = Some "light".
Proof. vm_compute. repeat split; reflexivity. Qed.

(** Two themes of one name: the second is refused. *)
Example setup_themes_same_name :
  setup_themes
    {| theme_manager :=
         {| current_theme := "light";
            themes := [("light", _get_light_theme); ("dark", _get_light_theme)];
            style := ttk_Style |};
       tk := [] |} =
  (Raise TclError,
   {| theme_manager :=
        {| current_theme := "light";
           themes := [("light", _get_light_theme); ("dark", _get_light_theme)];
           style := ttk_Style |};
      tk := tk (setup_themes
                  {| theme_manager :=
                       {| current_theme := "light";
                          themes := [("light", _get_light_theme)];
                          style := ttk_Style |};
                     tk := [] |}).2 ++ [ThemeCreate "light" "alt"] |}).
Proof. reflexivity. Qed.

(** ** [toggle_theme] after [setup_themes] *)


